(** * Nested routes lesson: actions, list view, detail view, creation view
      and route declarations, embedded and checked against the written
      description of the application.

    The JavaScript sources are
      - src/actions/index.js          (fetchMovies, addMovie, the id counter)
      - src/containers/MoviesPage.js  (the list view, as checked in)
      - src/index.js                  (the route declarations, as checked in)
    and the listings of the lesson text that give the later versions of
    MoviesPage.render, index.js, MoviesShow and MoviesNew. *)

From stdpp Require Import base option list strings gmap fin_maps.
From Stdlib Require Import ZArith Ascii String.

Set Warnings "-register-all".
Open Scope string_scope.
Open Scope Z_scope.

(* ===================================================================== *)
(** ** JavaScript values, objects and the heap *)
(* ===================================================================== *)

(** Object identity. Two references are the same object exactly when they
    are the same location. *)
Abbreviation loc := positive.

(** The primitive values that occur in the fields of this program's
    objects: ids are integer-valued numbers (exact below 2^53, far above
    anything the id counter reaches), titles and route parameters are
    strings, a missing field reads as [undefined]. *)
Inductive value :=
| VUndefined
| VNumber (n : Z)
| VString (s : string).

Global Instance value_eq_dec : EqDecision value.
Proof. solve_decision. Defined.

(** A plain object: a finite map from property names to values. *)
Abbreviation object := (gmap string value).

(** [o.k] *)
Definition get (o : object) (k : string) : value := default VUndefined (o !! k).

(* ===================================================================== *)
(** ** Loose equality [==] on these values *)
(* ===================================================================== *)

(** The result of converting a string to a number: not a number, an
    infinity, or the decimal value [m * 10^e]. The value is kept exact; the
    rounding of a literal with more digits than a double holds is not
    modelled, which plays no part for the integer ids compared here. *)
Inductive numeric :=
| NaN
| Infinity (negative : bool)
| Decimal (m e : Z).

Definition code (a : ascii) : Z := Z.of_nat (nat_of_ascii a).

(** White space and line terminators among the code units below 256:
    TAB, LF, VT, FF, CR, SP and NBSP. *)
Definition is_StrWhiteSpaceChar (a : ascii) : bool :=
  let n := code a in
  bool_decide (n = 9 ∨ n = 10 ∨ n = 11 ∨ n = 12 ∨ n = 13 ∨ n = 32 ∨ n = 160).

Definition is_DecimalDigit (a : ascii) : bool :=
  let n := code a in (48 <=? n) && (n <=? 57).

(** Value of a digit in the given base, for 0-9, a-f and A-F. *)
Definition digit_value (base : Z) (a : ascii) : option Z :=
  let n := code a in
  let d := if (48 <=? n) && (n <=? 57) then Some (n - 48)
           else if (97 <=? n) && (n <=? 102) then Some (n - 87)
           else if (65 <=? n) && (n <=? 70) then Some (n - 55)
           else None in
  d ≫= λ v, if v <? base then Some v else None.

(** Value of a sequence of digits, most significant first; [None] when a
    character is not a digit of the base. *)
Fixpoint digits_value (base acc : Z) (l : list ascii) : option Z :=
  match l with
  | [] => Some acc
  | a :: l' => digit_value base a ≫= λ d, digits_value base (acc * base + d) l'
  end.

(** One digit at least. *)
Definition integer_literal (base : Z) (l : list ascii) : option Z :=
  match l with
  | [] => None
  | _ => digits_value base 0 l
  end.

Fixpoint drop_while {A} (p : A → bool) (l : list A) : list A :=
  match l with
  | [] => []
  | a :: l' => if p a then drop_while p l' else l
  end.

Fixpoint take_while {A} (p : A → bool) (l : list A) : list A :=
  match l with
  | [] => []
  | a :: l' => if p a then a :: take_while p l' else []
  end.

Definition trim (l : list ascii) : list ascii :=
  rev (drop_while is_StrWhiteSpaceChar (rev (drop_while is_StrWhiteSpaceChar l))).

(** [ExponentPart]: e or E, an optional sign, digits. *)
Definition exponent_part (l : list ascii) : option Z :=
  match l with
  | a :: l' =>
      if bool_decide (a = "e"%char ∨ a = "E"%char) then
        match l' with
        | "+"%char :: ds => integer_literal 10 ds
        | "-"%char :: ds => Z.opp <$> integer_literal 10 ds
        | ds => integer_literal 10 ds
        end
      else None
  | [] => None
  end.

(** [StrUnsignedDecimalLiteral]: Infinity, or digits with an optional
    fraction and an optional exponent; a digit is required before or after
    the point. *)
Definition StrUnsignedDecimalLiteral (l : list ascii) : numeric :=
  if bool_decide (l = list_ascii_of_string "Infinity") then Infinity false
  else
    let ip := take_while is_DecimalDigit l in
    let r1 := drop_while is_DecimalDigit l in
    let '(fp, r2) :=
      match r1 with
      | "."%char :: r => (take_while is_DecimalDigit r, drop_while is_DecimalDigit r)
      | _ => ([], r1)
      end in
    match (ip ++ fp)%list with
    | [] => NaN
    | ds =>
        match digits_value 10 0 ds with
        | None => NaN
        | Some m =>
            match r2 with
            | [] => Decimal m (- Z.of_nat (List.length fp))
            | _ =>
                match exponent_part r2 with
                | Some x => Decimal m (x - Z.of_nat (List.length fp))
                | None => NaN
                end
            end
        end
    end.

Definition negate (x : numeric) : numeric :=
  match x with
  | NaN => NaN
  | Infinity s => Infinity (negb s)
  | Decimal m e => Decimal (- m) e
  end.

Definition of_integer_literal (o : option Z) : numeric :=
  match o with
  | Some n => Decimal n 0
  | None => NaN
  end.

(** [StringToNumber]: surrounding white space is dropped; the empty string
    is 0; 0x, 0o and 0b introduce unsigned integers in base 16, 8 and 2;
    anything else is a signed decimal literal or NaN. *)
Definition StringToNumber (s : string) : numeric :=
  match trim (list_ascii_of_string s) with
  | [] => Decimal 0 0
  | ("0"%char :: x :: ds) as l =>
      if bool_decide (x = "x"%char ∨ x = "X"%char) then of_integer_literal (integer_literal 16 ds)
      else if bool_decide (x = "o"%char ∨ x = "O"%char) then of_integer_literal (integer_literal 8 ds)
      else if bool_decide (x = "b"%char ∨ x = "B"%char) then of_integer_literal (integer_literal 2 ds)
      else StrUnsignedDecimalLiteral l
  | "+"%char :: l => StrUnsignedDecimalLiteral l
  | "-"%char :: l => negate (StrUnsignedDecimalLiteral l)
  | l => StrUnsignedDecimalLiteral l
  end.

(** [n == x] for an integer [n] and a converted string [x]. *)
Definition number_equals (n : Z) (x : numeric) : bool :=
  match x with
  | Decimal m e => if 0 <=? e then n =? m * 10 ^ e else n * 10 ^ (- e) =? m
  | _ => false
  end.

(** [a == b]. Equal types compare by value; a number and a string compare
    after the string is converted to a number; [undefined] equals only
    itself. *)
Definition loose_eq (a b : value) : bool :=
  match a, b with
  | VUndefined, VUndefined => true
  | VNumber x, VNumber y => x =? y
  | VString x, VString y => bool_decide (x = y)
  | VNumber x, VString s => number_equals x (StringToNumber s)
  | VString s, VNumber y => number_equals y (StringToNumber s)
  | _, _ => false
  end.

(** Exceptions that the embedded code can raise. *)
Inductive error :=
| TypeError (msg : string)
| ReferenceError (ident : string).

Inductive result (A : Type) :=
| Ok (a : A)
| Throw (e : error).
Arguments Ok {A} a.
Arguments Throw {A} e.

(** Redux actions of src/actions/index.js. The [movies] array of
    FETCH_MOVIES and the [movie] of ADD_MOVIE hold references. *)
Inductive action :=
| FETCH_MOVIES (movies : list loc)
| ADD_MOVIE (movie : loc).

(** The state held by the store: [{ movies: [...] }]. *)
Record appState := AppState { movies : list loc }.

(** What a handler does to the outside, in order. *)
Inductive event :=
| EPreventDefault
| EDispatch (a : action)
| EHistoryPush (path : string).

(** Everything a piece of code of the application can read or change:
    the object heap, the module-level [counter] of src/actions/index.js,
    the state of the Redux store, and the log of outside effects. *)
Record world := World {
  heap : gmap loc object;
  counter : Z;
  store : appState;
  events : list event
}.

(** [l.k] for a reference [l]. *)
Definition field (h : gmap loc object) (l : loc) (k : string) : value :=
  match h !! l with
  | Some o => get o k
  | None => VUndefined
  end.

(* ===================================================================== *)
(** ** A state monad over [world] *)
(* ===================================================================== *)

Definition M (A : Type) : Type := world → A * world.

Global Instance M_ret : MRet M := λ A a w, (a, w).
Global Instance M_bind : MBind M := λ A B f m w, let '(a, w') := m w in f a w'.

Definition run {A} (m : M A) (w : world) : world := snd (m w).
Definition eval {A} (m : M A) (w : world) : A := fst (m w).

(** [++counter]: increments the module-level counter and yields the new value. *)
Definition pre_incr_counter : M Z := λ w,
  let c := counter w + 1 in
  (c, World (heap w) c (store w) (events w)).

(** [l.k = v]: assignment to a property of an existing object. *)
Definition set_field (l : loc) (k : string) (v : value) : M unit := λ w,
  (tt, World (alter (<[k := v]>) l (heap w)) (counter w) (store w) (events w)).

(** An object literal: a new object at a location not in use. *)
Definition alloc (o : object) : M loc := λ w,
  let l := fresh (dom (heap w)) in
  (l, World (<[l := o]> (heap w)) (counter w) (store w) (events w)).

(** The object that a reference points to. *)
Definition read (l : loc) : M object := λ w,
  (default ∅ (heap w !! l), w).

Definition emit (e : event) : M unit := λ w,
  (tt, World (heap w) (counter w) (store w) (events w ++ [e])%list).

(* ===================================================================== *)
(** ** src/actions/index.js *)
(* ===================================================================== *)

(** [let counter = 1;] *)
Definition counter_init : Z := 1.

(** [export function fetchMovies()] *)
Definition fetchMovies : M action :=
  m ← alloc (<["id" := VNumber 1]> (<["title" := VString "A River Runs Through It"]> ∅));
  mret (FETCH_MOVIES [m]).

(** [export function addMovie(movie)] *)
Definition addMovie (movie : loc) : M action :=
  c ← pre_incr_counter;
  set_field movie "id" (VNumber c);;
  mret (ADD_MOVIE movie).

(* ===================================================================== *)
(** ** The reducer and the store *)
(* ===================================================================== *)

(** Modelled from the spec: [rootReducer] of ./reducers, which src/index.js
    imports and hands to [createStore] but which is not among the sources.
    On "request movie list" the state's movies is replaced by the list the
    intent supplies; on "add movie" it is the previous sequence with the
    new record appended. The record appended is the intent's [movie], the
    reference that [addMovie] returned. *)
Definition rootReducer (s : appState) (a : action) : appState :=
  match a with
  | FETCH_MOVIES ms => AppState ms
  | ADD_MOVIE m => AppState (movies s ++ [m])%list
  end.

(** [store.dispatch(action)]: the store replaces its state by the reducer's
    result; the dispatch is logged. *)
Definition dispatch (a : action) : M unit := λ w,
  (tt, World (heap w) (counter w) (rootReducer (store w) a) (events w ++ [EDispatch a])%list).

(** [bindActionCreators(creator, dispatch)]: calling the bound creator
    dispatches the action that the creator returns. *)
Definition bindActionCreators (creator : M action) : M unit :=
  a ← creator; dispatch a.

(** The world when the application starts: nothing allocated, the counter
    at its initial value, no movies in the store, nothing logged. *)
Definition world_init : world := World ∅ counter_init (AppState []) [].

(* ===================================================================== *)
(** ** Route declarations and the matcher *)
(* ===================================================================== *)

(** The components that the route declarations name. *)
Inductive component :=
| App
| MoviesPage
| MoviesShow
| MoviesNew.

Global Instance component_eq_dec : EqDecision component.
Proof. solve_decision. Defined.

(** [<Route path=... component=...> children </Route>] *)
Inductive route :=
| Route (path : string) (comp : component) (childRoutes : list route).

(** The pieces of a path between its slashes: ["/movies/new"] gives
    [""; "movies"; "new"]. *)
Fixpoint split (s : string) : list string :=
  match s with
  | EmptyString => [""]
  | String a s' =>
      if bool_decide (a = "/"%char) then "" :: split s'
      else match split s' with
           | seg :: rest => String a seg :: rest
           | [] => [String a ""]
           end
  end.

(** One empty piece at the end (a closing slash) is not a segment. *)
Fixpoint drop_closing (l : list string) : list string :=
  match l with
  | [] => []
  | [s] => if bool_decide (s = "") then [] else [s]
  | s :: l' => s :: drop_closing l'
  end.

(** Segments of a pathname or pattern that begins with a slash. *)
Definition segments (p : string) : list string :=
  match split p with
  | _ :: l => drop_closing l
  | [] => []
  end.

Abbreviation params := (list (string * string)).

(** Modelled from the spec: the pattern matching of the routing library
    (react-router, imported by src/index.js; not part of the sources). A
    pattern segment [:name] captures one non-empty path segment as text
    under [name]; any other pattern segment matches the same text only; the
    pattern matches a path with the same number of segments. *)
Fixpoint matchPattern (pattern path : list string) : option params :=
  match pattern, path with
  | [], [] => Some []
  | String ":" name :: pattern', x :: path' =>
      if bool_decide (x = "") then None
      else (λ ps, (name, x) :: ps) <$> matchPattern pattern' path'
  | lit :: pattern', x :: path' =>
      if bool_decide (lit = x) then matchPattern pattern' path' else None
  | _, _ => None
  end.

(** Modelled from the spec: the matcher of the routing library. Sibling
    routes are tried in declaration order and the first that matches wins;
    a route matches when its own pattern matches the path, or when one of
    its child routes matches, in which case its component comes before the
    child's in the chain. Every pattern of this application begins with a
    slash, so each is matched against the whole path and the captured
    parameters are those of the route that ends the chain. *)
Fixpoint matchRouteDeep (path : list string) (r : route) : option (list component * params) :=
  match r with
  | Route p c kids =>
      match matchPattern (segments p) path with
      | Some ps => Some ([c], ps)
      | None =>
          let fix matchRoutes (rs : list route) : option (list component * params) :=
            match rs with
            | [] => None
            | r' :: rs' =>
                match matchRouteDeep path r' with
                | Some m => Some m
                | None => matchRoutes rs'
                end
            end in
          match matchRoutes kids with
          | Some (cs, ps) => Some (c :: cs, ps)
          | None => None
          end
      end
  end.

Fixpoint matchRoutes (path : list string) (rs : list route) : option (list component * params) :=
  match rs with
  | [] => None
  | r :: rs' =>
      match matchRouteDeep path r with
      | Some m => Some m
      | None => matchRoutes path rs'
      end
  end.

(** The chain of components and the parameters for a pathname. *)
Definition match_location (rs : list route) (pathname : string) : option (list component * params) :=
  matchRoutes (segments pathname) rs.

(** src/index.js as checked in: two routes side by side, neither with
    child routes. *)
Definition routes_index_js : list route :=
  [ Route "/" App [];
    Route "/movies" MoviesPage [] ].

(** The routes nested below the list view in the lesson's listing of
    ./src/index.js, in the order of the listing. *)
Definition movie_routes : list route :=
  [ Route "/movies/new" MoviesNew [];
    Route "/movies/:id" MoviesShow [] ].

(** The lesson's final listing of ./src/index.js, with the routes below
    the list view left open. *)
Definition routes_nested (below_movies : list route) : list route :=
  [ Route "/" App [ Route "/movies" MoviesPage below_movies ] ].

Definition routes_lesson : list route := routes_nested movie_routes.

(* ===================================================================== *)
(** ** Rendered output *)
(* ===================================================================== *)

(** What a render returns: a [div] with its children, a value shown as
    text ([undefined] shows nothing), the [MoviesList] element with the
    movies it is given, or the element that the router makes for the
    component of a matched child route. *)
Inductive element :=
| Div (className : option string) (kids : list element)
| Text (v : value)
| MoviesList (movies : list loc)
| RouteElement (c : component).

(** A [{ ... }] slot: [undefined] puts nothing into the output. *)
Definition slot (e : option element) : list element :=
  match e with
  | Some x => [x]
  | None => []
  end.

(* ===================================================================== *)
(** ** Evaluation of a module's top-level expressions *)
(* ===================================================================== *)

Inductive expr :=
| Ident (name : string)
| Call (callee : expr) (args : list expr).

Section ModuleEvaluation.
Context {V : Type}.
(** The names that the module declares or imports. *)
Variable declared : list string.
(** The values that those names are bound to. *)
Variable values : string → V.
(** The global object. *)
Variable globals : string → option V.
(** Calling a value with arguments. *)
Variable call : V → list V → result V.

(** An identifier resolves in the module scope, then in the global
    object; otherwise evaluation throws a ReferenceError. *)
Definition resolve (x : string) : result V :=
  if bool_decide (x ∈ declared) then Ok (values x)
  else match globals x with
       | Some v => Ok v
       | None => Throw (ReferenceError x)
       end.

(** A call evaluates its callee, then its arguments from left to right,
    then calls. *)
Fixpoint evaluate (e : expr) : result V :=
  match e with
  | Ident x => resolve x
  | Call f args =>
      match evaluate f with
      | Throw err => Throw err
      | Ok fv =>
          let fix evaluate_args (es : list expr) : result (list V) :=
            match es with
            | [] => Ok []
            | e' :: es' =>
                match evaluate e' with
                | Throw err => Throw err
                | Ok v =>
                    match evaluate_args es' with
                    | Throw err => Throw err
                    | Ok vs => Ok (v :: vs)
                    end
                end
            end in
          match evaluate_args args with
          | Throw err => Throw err
          | Ok vs => call fv vs
          end
      end
  end.
End ModuleEvaluation.

(* ===================================================================== *)
(** ** src/containers/MoviesPage.js *)
(* ===================================================================== *)

Module MoviesPageJs.

(** [mapStateToProps = (state) => ({ movies: state.movies })] *)
Definition mapStateToProps (state : appState) : list loc := movies state.

(** [this.props] has [movies] from [mapStateToProps], [children] from the
    router ([undefined] when no child route matched) and [fetchMovies],
    the bound action creator of [mapDispatchToProps]. *)
Record props := Props {
  movies : list loc;
  children : option element
}.

(** [mapDispatchToProps]: [fetchMovies: bindActionCreators(fetchMovies, dispatch)] *)
Definition mapDispatchToProps : M unit := bindActionCreators fetchMovies.

(** [componentDidMount() { this.props.fetchMovies(); }] *)
Definition componentDidMount : M unit := mapDispatchToProps.

(** [render()] of the file as checked in. *)
Definition render (p : props) : element :=
  Div None [MoviesList (movies p)].

(** [render()] of the lesson's later listing of ./src/containers/MoviesPage.js,
    with [{ this.props.children }] below the list. *)
Definition render_with_children (p : props) : element :=
  Div None (MoviesList (movies p) :: slot (children p)).

(** The imports of the file, its class and its two constants. *)
Definition declared : list string :=
  [ "React"; "Component"; "connect"; "bindActionCreators"; "fetchMovies";
    "MoviesList"; "MoviesPage"; "mapStateToProps"; "mapDispatchToProps" ].

(** [connect(mapStateToProps, mapDispatchToProps)(MoviePage)], the
    expression of [export default]. *)
Definition default_export : expr :=
  Call (Call (Ident "connect") [Ident "mapStateToProps"; Ident "mapDispatchToProps"])
       [Ident "MoviePage"].

End MoviesPageJs.

(* ===================================================================== *)
(** ** ./src/containers/MoviesShow.js (listing of the lesson) *)
(* ===================================================================== *)

Module MoviesShowJs.

(** [mapStateToProps = (state, ownProps) => ({ movie: state.movies.find(
      movie => movie.id == ownProps.routeParams.id) })].
    [id] is [ownProps.routeParams.id]: the captured text, or [undefined]
    when the route has no such parameter. [find] gives the first element
    for which the test holds, [undefined] ([None]) when there is none. *)
Definition mapStateToProps (h : gmap loc object) (state : appState) (id : value) : option loc :=
  find (λ movie, loose_eq (field h movie "id") id) (movies state).

(** [MoviesShow = (props) => <div className="col-md-8">{props.movie.title}</div>].
    Reading [title] of [undefined] throws. *)
Definition MoviesShow (h : gmap loc object) (movie : option loc) : result element :=
  match movie with
  | Some m => Ok (Div (Some "col-md-8") [Text (field h m "title")])
  | None => Throw (TypeError "Cannot read property 'title' of undefined")
  end.

(** [connect(mapStateToProps)(MoviesShow)] rendered for a store state and
    a route parameter. *)
Definition connected (h : gmap loc object) (state : appState) (id : value) : result element :=
  MoviesShow h (mapStateToProps h state id).

End MoviesShowJs.

(* ===================================================================== *)
(** ** ./src/containers/MoviesNew (listing of the lesson) *)
(* ===================================================================== *)

Module MoviesNewJs.

(** [constructor() { super(); this.state = { title: '' }; }]: yields the
    reference held in [this.state]. *)
Definition constructor : M loc :=
  alloc (<["title" := VString ""]> ∅).

(** [handleOnSubmit(event)], for the object that [this.state] refers to. *)
Definition handleOnSubmit (this_state : loc) : M unit :=
  emit EPreventDefault;;
  bindActionCreators (addMovie this_state);;
  emit (EHistoryPush "/movies").

(** [handleOnChange(event) { this.setState({ title: event.target.value }); }],
    for the object that [this.state] refers to and the text of the field.
    [setState] leaves the current state object as it is: the next state is
    a new object, the current one with [title] replaced. The reference
    yielded is the one that [this.state] holds afterwards. *)
Definition handleOnChange (this_state : loc) (target_value : string) : M loc :=
  o ← read this_state;
  alloc (<["title" := VString target_value]> o).

End MoviesNewJs.

(* ===================================================================== *)
(** ** String conversion in template literals *)
(* ===================================================================== *)

(** The character of a decimal digit. *)
Definition digit_char (d : Z) : ascii := ascii_of_nat (Z.to_nat (48 + d)).

(** The decimal digits of a natural number, most significant first, put
    before [acc]. [fuel] bounds the number of digits after the first. *)
Fixpoint decimal_digits (fuel : nat) (n : Z) (acc : list ascii) : list ascii :=
  match fuel with
  | O => digit_char n :: acc
  | S fuel' =>
      if n <? 10 then digit_char n :: acc
      else decimal_digits fuel' (n / 10) (digit_char (n mod 10) :: acc)
  end.

(** The decimal numeral of a natural number; it has no more digits than
    the number has bits. *)
Definition numeral (n : Z) : list ascii :=
  decimal_digits (Z.to_nat (Z.log2 n)) n [].

(** Number to string, for the integers that a number holds exactly
    (magnitude below 2^53): the decimal numeral, after a minus sign for a
    negative number. *)
Definition NumberToString (n : Z) : string :=
  if n <? 0 then String "-" (string_of_list_ascii (numeral (- n)))
  else string_of_list_ascii (numeral n).

(** [`${v}`] *)
Definition ToString (v : value) : string :=
  match v with
  | VUndefined => "undefined"
  | VNumber n => NumberToString n
  | VString s => s
  end.

(* ===================================================================== *)
(** ** ./src/components/MoviesList.js (listings of the lesson) *)
(* ===================================================================== *)

(** Output of the presentational components: tags with their children,
    list items with their [key], links with their target, and values shown
    as text. *)
Inductive markup :=
| MTag (tag : string) (className : option string) (kids : list markup)
| MLi (key : value) (kids : list markup)
| MLink (to : string) (kids : list markup)
| MText (v : value).

Module MoviesListJs.

(** [`/movies/${movie.id}`] *)
Definition movie_path (h : gmap loc object) (movie : loc) : string :=
  "/movies/" +:+ ToString (field h movie "id").

(** [movie => <li key={movie.id}><Link to={`/movies/${movie.id}`}>{movie.title}</Link></li>] *)
Definition entry (h : gmap loc object) (movie : loc) : markup :=
  MLi (field h movie "id") [MLink (movie_path h movie) [MText (field h movie "title")]].

(** The component of the lesson's last listing of the file: the link to
    the creation form, then the entries of [props.movies.map(...)]. *)
Definition MoviesList (h : gmap loc object) (movies : list loc) : markup :=
  MTag "div" None
    [ MTag "div" (Some "col-md-4")
        [ MLink "/movies/new" [MText (VString "Add A Movie")];
          MTag "ul" None (entry h <$> movies) ] ].

End MoviesListJs.

(* ===================================================================== *)
(** ** Earlier route listings of the lesson *)
(* ===================================================================== *)

(** The listing of src/index.js in the first lesson text: the root route
    is closed before the list view's route, which has the detail route
    below it. *)
Definition routes_root_closed : list route :=
  [ Route "/" App [];
    Route "/movies" MoviesPage [ Route "/movies/:id" MoviesShow [] ] ].

(** The first nested listing of ./src/index.js: the detail route alone
    below the list view. *)
Definition routes_detail_only : list route :=
  routes_nested [ Route "/movies/:id" MoviesShow [] ].

(* ===================================================================== *)
(** ** A session at the user interface *)
(* ===================================================================== *)

(** What the user can bring about: the list view mounts, the creation
    form is opened, text is typed into its field, the form is submitted. *)
Inductive ui_event :=
| Mount
| OpenForm
| Type_ (text : string)
| Submit.

(** The world together with the reference in [this.state] of the creation
    form, when one is open. *)
Record session := Session {
  sworld : world;
  form : option loc
}.

Definition step (s : session) (e : ui_event) : session :=
  match e, form s with
  | Mount, _ => Session (run MoviesPageJs.componentDidMount (sworld s)) (form s)
  | OpenForm, _ =>
      Session (run MoviesNewJs.constructor (sworld s))
              (Some (eval MoviesNewJs.constructor (sworld s)))
  | Type_ text, Some this_state =>
      Session (run (MoviesNewJs.handleOnChange this_state text) (sworld s))
              (Some (eval (MoviesNewJs.handleOnChange this_state text) (sworld s)))
  | Submit, Some this_state =>
      Session (run (MoviesNewJs.handleOnSubmit this_state) (sworld s)) (form s)
  | _, None => s
  end.

Definition steps (s : session) (es : list ui_event) : session := foldl step s es.

Definition session_init : session := Session world_init None.

(** The number of submits that reach an open form. *)
Fixpoint submits (open : bool) (es : list ui_event) : nat :=
  match es with
  | [] => 0
  | OpenForm :: es' => submits true es'
  | Submit :: es' => if open then S (submits open es') else submits open es'
  | _ :: es' => submits open es'
  end.

(** A run of "add movie" intents: each payload is handed to [addMovie] and
    the intent is dispatched before the next is made. *)
Fixpoint addMovies (payloads : list loc) : M unit :=
  match payloads with
  | [] => mret tt
  | m :: rest => bindActionCreators (addMovie m);; addMovies rest
  end.

(** The ids of a list of records, read from the heap. *)
Definition ids (h : gmap loc object) (ms : list loc) : list value :=
  (λ m, field h m "id") <$> ms.

(* ===================================================================== *)
(** ** Worlds, inputs and route lists that the statements use *)
(* ===================================================================== *)

(** The record of the seed list that [fetchMovies] supplies. *)
Definition river_record : object :=
  <["id" := VNumber 1]> (<["title" := VString "A River Runs Through It"]> ∅).

(** A world with two payload objects of the same contents, as two forms
    holding the same title would give. *)
Definition inception : object := <["title" := VString "Inception"]> ∅.
Definition two_payloads : world :=
  World (<[2%positive := inception]> (<[1%positive := inception]> ∅)) counter_init (AppState []) [].

(** The world after the list view has mounted: the store holds the seed
    list. *)
Definition seeded : world := run MoviesPageJs.componentDidMount world_init.

(** A world with one payload object. *)
Definition one_payload : world :=
  World (<[1%positive := inception]> ∅) counter_init (AppState []) [].

(** A new creation form submitted once, after the list view has mounted. *)
Definition form_submitted : world :=
  run (this_state ← MoviesNewJs.constructor; MoviesNewJs.handleOnSubmit this_state) seeded.

(** The text of a single path segment: no slash in it. *)
Fixpoint has_no_slash (s : string) : bool :=
  match s with
  | EmptyString => true
  | String a s' => negb (bool_decide (a = "/"%char)) && has_no_slash s'
  end.

(** The two routes below the list view declared in the other order. *)
Definition movie_routes_reversed : list route :=
  [ Route "/movies/:id" MoviesShow [];
    Route "/movies/new" MoviesNew [] ].

(** The call [connect(mapStateToProps, mapDispatchToProps)] of the export. *)
Definition connect_call {V} (values : string → V) (call : V → list V → result V) : result V :=
  call (values "connect") [values "mapStateToProps"; values "mapDispatchToProps"].

(** A global object without any property, over values that carry nothing. *)
Definition no_globals : string → option unit := λ _, None.

(** The characters of the decimal digits. *)
Definition decimal_chars : list ascii :=
  ["0"; "1"; "2"; "3"; "4"; "5"; "6"; "7"; "8"; "9"]%char.

(** What holds of a session after any events: the counter is at least 1,
    every record in the store has a numeric id between 1 and the counter,
    and the state object of an open form exists. *)
Definition session_ok (s : session) : Prop :=
  1 ≤ counter (sworld s) ∧
  (∀ m, m ∈ movies (store (sworld s)) →
     ∃ n, field (heap (sworld s)) m "id" = VNumber n ∧ 1 ≤ n ≤ counter (sworld s)) ∧
  (∀ l, form s = Some l → is_Some (heap (sworld s) !! l)).


(* ===================================================================== *)
(** * Properties *)
(* ===================================================================== *)

(** ** Heap and monad facts *)

Lemma field_set_same (h : gmap loc object) (l : loc) (k : string) (v : value) :
  is_Some (h !! l) → field (alter (<[k := v]>) l h) l k = v.
Proof.
  intros [o Ho]. unfold field, get.
  rewrite lookup_alter_eq, Ho. simpl. by rewrite lookup_insert_eq.
Qed.

Lemma field_set_other_key (h : gmap loc object) (l : loc) (k k' : string) (v : value) :
  k ≠ k' → field (alter (<[k := v]>) l h) l k' = field h l k'.
Proof.
  intros Hk. unfold field, get. rewrite lookup_alter_eq.
  destruct (h !! l) as [o|]; simpl; [|done]. by rewrite lookup_insert_ne.
Qed.

Lemma field_set_other_loc (h : gmap loc object) (l l' : loc) (k k' : string) (v : value) :
  l ≠ l' → field (alter (<[k := v]>) l h) l' k' = field h l' k'.
Proof. intros Hl. unfold field. by rewrite lookup_alter_ne. Qed.

Lemma run_bind {A B} (m : M A) (f : A → M B) (w : world) :
  run (m ≫= f) w = run (f (eval m w)) (run m w).
Proof. unfold run, eval, mbind, M_bind. by destruct (m w). Qed.

Lemma eval_bind {A B} (m : M A) (f : A → M B) (w : world) :
  eval (m ≫= f) w = eval (f (eval m w)) (run m w).
Proof. unfold run, eval, mbind, M_bind. by destruct (m w). Qed.

(** What creating and dispatching one "add movie" intent does to the world. *)
Lemma run_dispatch_addMovie (m : loc) (w : world) :
  run (bindActionCreators (addMovie m)) w =
  World (alter (<["id" := VNumber (counter w + 1)]>) m (heap w))
        (counter w + 1)
        (AppState (movies (store w) ++ [m]))
        (events w ++ [EDispatch (ADD_MOVIE m)]).
Proof. reflexivity. Qed.

Lemma addMovies_cons (m : loc) (ms : list loc) (w : world) :
  run (addMovies (m :: ms)) w = run (addMovies ms) (run (bindActionCreators (addMovie m)) w).
Proof. simpl. by rewrite run_bind. Qed.

Lemma addMovies_store (ms : list loc) (w : world) :
  movies (store (run (addMovies ms) w)) = (movies (store w) ++ ms)%list.
Proof.
  revert w. induction ms as [|m ms IH]; intros w.
  - change (movies (store w) = (movies (store w) ++ [])%list). by rewrite app_nil_r.
  - rewrite addMovies_cons, IH, run_dispatch_addMovie. simpl.
    by rewrite <- app_assoc.
Qed.

Lemma addMovies_counter (ms : list loc) (w : world) :
  counter (run (addMovies ms) w) = counter w + Z.of_nat (List.length ms).
Proof.
  revert w. induction ms as [|m ms IH]; intros w.
  - change (counter w = counter w + 0). lia.
  - rewrite addMovies_cons, IH, run_dispatch_addMovie. simpl List.length. simpl counter. lia.
Qed.

(** Objects that are not among the payloads are left as they were. *)
Lemma addMovies_frame (ms : list loc) (w : world) (l : loc) :
  l ∉ ms → heap (run (addMovies ms) w) !! l = heap w !! l.
Proof.
  revert w. induction ms as [|m ms IH]; intros w Hl.
  - done.
  - apply not_elem_of_cons in Hl as [Hne Hl].
    rewrite addMovies_cons, IH by done. rewrite run_dispatch_addMovie. simpl.
    by rewrite lookup_alter_ne.
Qed.

(** With pairwise distinct payloads, the payload at position [k] (from 0)
    ends with the id [counter + k + 1]. *)
Lemma addMovies_id (ms : list loc) (w : world) (k : nat) (m : loc) :
  NoDup ms →
  (∀ x, x ∈ ms → is_Some (heap w !! x)) →
  ms !! k = Some m →
  field (heap (run (addMovies ms) w)) m "id" = VNumber (counter w + Z.of_nat k + 1).
Proof.
  revert w k. induction ms as [|x ms IH]; intros w k Hnd Hal Hk; [done|].
  apply NoDup_cons in Hnd as [Hx Hnd]. rewrite addMovies_cons.
  destruct k as [|k]; simpl in Hk.
  - injection Hk as ->. unfold field at 1.
    rewrite addMovies_frame by done. fold (field (heap (run (bindActionCreators (addMovie m)) w)) m "id").
    rewrite run_dispatch_addMovie. simpl heap.
    rewrite field_set_same by (apply Hal; left). f_equal. lia.
  - rewrite (IH _ k); [| done | | done].
    + rewrite run_dispatch_addMovie. simpl counter. f_equal. lia.
    + intros y Hy. rewrite run_dispatch_addMovie. simpl heap.
      rewrite lookup_alter_is_Some. apply Hal. by right.
Qed.

Lemma addMovies_ids (ms : list loc) (w : world) :
  NoDup ms →
  (∀ x, x ∈ ms → is_Some (heap w !! x)) →
  ids (heap (run (addMovies ms) w)) ms =
  (λ k, VNumber (counter w + Z.of_nat k + 1)) <$> seq 0 (List.length ms).
Proof.
  intros Hnd Hal. apply list_eq. intros k. unfold ids.
  rewrite !list_lookup_fmap.
  destruct (ms !! k) as [m|] eqn:Hk; simpl.
  - rewrite lookup_seq_lt by (by eapply lookup_lt_Some). simpl.
    by rewrite (addMovies_id ms w k m).
  - rewrite lookup_seq_ge; [done|]. by apply lookup_ge_None.
Qed.

(** ** src/actions/index.js: the two action creators *)

(** C9. For every payload object [m], [addMovie(m)] changes [m] in place:
    the object at [m] gets its [id] from the incremented module-level
    counter, nothing else in the world changes, and the intent returned
    carries the reference [m] itself. A second call, for a payload [m']
    with the same contents (the same object or another), returns an intent
    whose movie has a different id from the one the first call returned;
    when [m'] is the same object, the id that the first intent shows
    changes with it. *)
Theorem addMovie_mutates_payload_in_place (w : world) (m m' : loc) (o : object) :
  heap w !! m = Some o →
  heap w !! m' = Some o →
  eval (addMovie m) w = ADD_MOVIE m ∧
  heap (run (addMovie m) w) !! m = Some (<["id" := VNumber (counter w + 1)]> o) ∧
  run (addMovie m) w =
    World (alter (<["id" := VNumber (counter w + 1)]>) m (heap w)) (counter w + 1) (store w) (events w) ∧
  eval (addMovie m') (run (addMovie m) w) = ADD_MOVIE m' ∧
  field (heap (run (addMovie m) w)) m "id" = VNumber (counter w + 1) ∧
  field (heap (run (addMovie m') (run (addMovie m) w))) m' "id" = VNumber (counter w + 2) ∧
  field (heap (run (addMovie m) w)) m "id" ≠ field (heap (run (addMovie m') (run (addMovie m) w))) m' "id" ∧
  field (heap (run (addMovie m') (run (addMovie m) w))) m "id" =
    VNumber (if bool_decide (m = m') then counter w + 2 else counter w + 1).
Proof.
  intros Hm Hm'.
  assert (run (addMovie m) w =
    World (alter (<["id" := VNumber (counter w + 1)]>) m (heap w)) (counter w + 1) (store w) (events w))
    as Hrun by reflexivity.
  assert (∀ w1, run (addMovie m') w1 =
    World (alter (<["id" := VNumber (counter w1 + 1)]>) m' (heap w1)) (counter w1 + 1) (store w1) (events w1))
    as Hrun' by reflexivity.
  assert (field (heap (run (addMovie m) w)) m "id" = VNumber (counter w + 1)) as H1.
  { rewrite Hrun. simpl heap. by apply field_set_same. }
  assert (field (heap (run (addMovie m') (run (addMovie m) w))) m' "id" = VNumber (counter w + 2)) as H2.
  { rewrite Hrun', Hrun. simpl heap. simpl counter.
    rewrite field_set_same.
    - f_equal. lia.
    - rewrite lookup_alter_is_Some. by eexists. }
  split_and!; try done.
  - rewrite Hrun. simpl heap. by rewrite lookup_alter_eq, Hm.
  - rewrite H1, H2. intros [=]. lia.
  - case_bool_decide as Hmm.
    + subst m'. rewrite H2. done.
    + clear Hrun H2. revert H1. generalize (run (addMovie m) w). intros w1 H1.
      rewrite Hrun'. simpl heap. rewrite field_set_other_loc by done. by rewrite H1.
Qed.

Lemma addMovie_mutates_payload_in_place_witness :
  heap two_payloads !! 1%positive = Some inception ∧
  heap two_payloads !! 2%positive = Some inception ∧
  field (heap (run (addMovie 1%positive) two_payloads)) 1%positive "id" ≠
  field (heap (run (addMovie 2%positive) (run (addMovie 1%positive) two_payloads))) 2%positive "id".
Proof.
  split; [reflexivity|]. split; [reflexivity|].
  apply (addMovie_mutates_payload_in_place two_payloads 1%positive 2%positive inception);
    reflexivity.
Defined.

(** ** The reducer on runs of "add movie" intents *)

(** C6, as it holds. Each "add movie" intent appends exactly one record, so
    the movies sequence grows by one per intent. For [n] intents made from
    pairwise distinct payload objects, with the counter at its initial
    value 1, the record made [k]-th (counting from 1; position [k - 1] of
    the payloads) ends with id [k + 1], the first with id 2, and the ids of
    the records made are pairwise distinct. *)
Theorem add_movie_intents_distinct_payloads
    (h : gmap loc object) (st : appState) (ev : list event) (payloads : list loc) :
  NoDup payloads →
  (∀ m, m ∈ payloads → is_Some (h !! m)) →
  (∀ w m, movies (store (run (bindActionCreators (addMovie m)) w)) = (movies (store w) ++ [m])%list) ∧
  movies (store (run (addMovies payloads) (World h counter_init st ev))) = (movies st ++ payloads)%list ∧
  List.length (movies (store (run (addMovies payloads) (World h counter_init st ev)))) =
    (List.length (movies st) + List.length payloads)%nat ∧
  (∀ k m, payloads !! k = Some m →
     field (heap (run (addMovies payloads) (World h counter_init st ev))) m "id"
       = VNumber (Z.of_nat (S k) + 1)) ∧
  NoDup (ids (heap (run (addMovies payloads) (World h counter_init st ev))) payloads).
Proof.
  intros Hnd Hal. split_and!.
  - intros w m. by rewrite run_dispatch_addMovie.
  - by rewrite addMovies_store.
  - rewrite addMovies_store. simpl. by rewrite length_app.
  - intros k m Hk. rewrite (addMovies_id payloads _ k m) by done.
    simpl counter. unfold counter_init. f_equal. lia.
  - rewrite addMovies_ids by done. apply NoDup_fmap_2.
    + intros i j [=]. lia.
    + apply NoDup_seq.
Qed.

Lemma add_movie_intents_distinct_payloads_witness :
  NoDup [1%positive; 2%positive] ∧
  ids (heap (run (addMovies [1%positive; 2%positive]) two_payloads)) [1%positive; 2%positive]
    = [VNumber 2; VNumber 3] ∧
  NoDup (ids (heap (run (addMovies [1%positive; 2%positive]) two_payloads)) [1%positive; 2%positive]).
Proof.
  assert (NoDup [1%positive; 2%positive]) as Hnd.
  { apply NoDup_cons. split; [|apply NoDup_singleton].
    intros H. apply list_elem_of_singleton in H. discriminate H. }
  split; [exact Hnd|]. split; [reflexivity|].
  apply (add_movie_intents_distinct_payloads (heap two_payloads) (AppState []) [] _ Hnd).
  intros m Hm. apply elem_of_cons in Hm as [->|Hm].
  - eexists. reflexivity.
  - apply list_elem_of_singleton in Hm as ->. eexists. reflexivity.
Defined.

(** C6 as stated fails when two intents are made from one payload object,
    [dispatch(addMovie(m)); dispatch(addMovie(m))]: two records are
    appended, both entries are that one object, and both show the id of
    the second intent (3), so the first record made does not keep id 2 and
    the ids in the resulting state are not pairwise distinct. *)
Lemma add_movie_same_payload_shares_id :
  movies (store (run (addMovies [1%positive; 1%positive]) one_payload)) = [1%positive; 1%positive] ∧
  ids (heap (run (addMovies [1%positive; 1%positive]) one_payload))
      (movies (store (run (addMovies [1%positive; 1%positive]) one_payload)))
    = [VNumber 3; VNumber 3] ∧
  ¬ NoDup (ids (heap (run (addMovies [1%positive; 1%positive]) one_payload))
               (movies (store (run (addMovies [1%positive; 1%positive]) one_payload)))).
Proof.
  split; [reflexivity|]. split; [reflexivity|].
  change (ids _ _) with [VNumber 3; VNumber 3].
  intros H. apply NoDup_cons in H as [H _]. apply H. left.
Qed.

(** ** The creation form's submit handler *)

(** C7. On every submit, whatever the world and the local state object,
    [handleOnSubmit] adds exactly three effects to the log, in this order:
    the default form navigation is prevented, an "add movie" intent whose
    movie is the local state object is dispatched, and the navigation to
    /movies is issued last. The title of the dispatched movie is the title
    that the local state held, and the store has the record appended when
    the navigation is issued. *)
Theorem handleOnSubmit_prevent_dispatch_push (w : world) (this_state : loc) :
  events (run (MoviesNewJs.handleOnSubmit this_state) w) =
    (events w ++ [EPreventDefault; EDispatch (ADD_MOVIE this_state); EHistoryPush "/movies"])%list ∧
  field (heap (run (MoviesNewJs.handleOnSubmit this_state) w)) this_state "title" =
    field (heap w) this_state "title" ∧
  movies (store (run (MoviesNewJs.handleOnSubmit this_state) w)) =
    (movies (store w) ++ [this_state])%list.
Proof.
  assert (run (MoviesNewJs.handleOnSubmit this_state) w =
    World (alter (<["id" := VNumber (counter w + 1)]>) this_state (heap w))
          (counter w + 1)
          (AppState (movies (store w) ++ [this_state]))
          (((events w ++ [EPreventDefault]) ++ [EDispatch (ADD_MOVIE this_state)])
             ++ [EHistoryPush "/movies"])) as -> by reflexivity.
  simpl. split_and!.
  - by rewrite <- !app_assoc.
  - by apply field_set_other_key.
  - done.
Qed.

(** A new form submitted in the seeded state: the form's own state object
    is the record appended, after the seed record, and it now carries the
    id 2. *)
Lemma new_form_submitted_once :
  movies (store form_submitted) = [1%positive; 2%positive] ∧
  ids (heap form_submitted) (movies (store form_submitted)) = [VNumber 1; VNumber 2] ∧
  field (heap form_submitted) 2%positive "title" = VString "" ∧
  events form_submitted =
    [ EDispatch (FETCH_MOVIES [1%positive]); EPreventDefault;
      EDispatch (ADD_MOVIE 2%positive); EHistoryPush "/movies" ].
Proof. split_and!; reflexivity. Qed.

(** ** The list request *)

(** C8. For every current state, the reducer on a "request movie list"
    intent gives the state whose movies is the list that the intent
    supplies. [fetchMovies] always supplies a list of one new record with
    id 1 and title "A River Runs Through It". The list view's
    [componentDidMount] dispatches that intent exactly once: the log grows
    by this one dispatch, and the store then holds the one-record list
    whatever it held before. *)
Theorem fetch_movies_replaces_with_seed_list :
  (∀ (s : appState) (ms : list loc), rootReducer s (FETCH_MOVIES ms) = AppState ms) ∧
  (∀ w : world, ∃ l : loc,
     eval fetchMovies w = FETCH_MOVIES [l] ∧
     heap w !! l = None ∧
     heap (run fetchMovies w) = <[l := river_record]> (heap w) ∧
     field (heap (run fetchMovies w)) l "id" = VNumber 1 ∧
     field (heap (run fetchMovies w)) l "title" = VString "A River Runs Through It") ∧
  (∀ w : world, ∃ l : loc,
     events (run MoviesPageJs.componentDidMount w) = (events w ++ [EDispatch (FETCH_MOVIES [l])])%list ∧
     store (run MoviesPageJs.componentDidMount w) = AppState [l] ∧
     heap (run MoviesPageJs.componentDidMount w) = <[l := river_record]> (heap w) ∧
     heap w !! l = None ∧
     counter (run MoviesPageJs.componentDidMount w) = counter w).
Proof.
  assert (∀ w : world, heap w !! fresh (dom (heap w)) = None) as Hfresh.
  { intros w. apply not_elem_of_dom. apply is_fresh. }
  split_and!.
  - done.
  - intros w. exists (fresh (dom (heap w))). split_and!; try done.
    + unfold field. change (heap (run fetchMovies w)) with (<[fresh (dom (heap w)) := river_record]> (heap w)).
      by rewrite lookup_insert_eq.
    + unfold field. change (heap (run fetchMovies w)) with (<[fresh (dom (heap w)) := river_record]> (heap w)).
      by rewrite lookup_insert_eq.
  - intros w. exists (fresh (dom (heap w))). split_and!; done.
Qed.

(** ** Route matching *)

Lemma split_no_slash (s : string) : has_no_slash s = true → split s = [s].
Proof.
  induction s as [|a s IH]; [done|]. simpl. intros H.
  apply andb_true_iff in H as [Ha Hs]. apply negb_true_iff in Ha. rewrite Ha.
  by rewrite IH.
Qed.

Lemma split_slash (s : string) : split (String "/" s) = "" :: split s.
Proof. done. Qed.

Lemma split_letter (a : ascii) (s seg : string) (rest : list string) :
  a ≠ "/"%char → split s = seg :: rest → split (String a s) = String a seg :: rest.
Proof. intros Ha Hs. simpl. rewrite Hs. by rewrite bool_decide_eq_false_2. Qed.

(** A path one segment below /movies has the two segments "movies" and
    that text. *)
Lemma segments_below_movies (s : string) :
  s ≠ "" → has_no_slash s = true → segments ("/movies/" +:+ s) = ["movies"; s].
Proof.
  intros Hne Hs. unfold segments.
  change ("/movies/" +:+ s) with
    (String "/" (String "m" (String "o" (String "v" (String "i" (String "e"
       (String "s" (String "/" s)))))))).
  rewrite split_slash.
  rewrite (split_letter "m" _ "ovies" [s]); [|done|].
  - simpl. by rewrite bool_decide_eq_false_2.
  - rewrite (split_letter "o" _ "vies" [s]); [done|done|].
    rewrite (split_letter "v" _ "ies" [s]); [done|done|].
    rewrite (split_letter "i" _ "es" [s]); [done|done|].
    rewrite (split_letter "e" _ "s" [s]); [done|done|].
    rewrite (split_letter "s" _ "" [s]); [done|done|].
    rewrite split_slash. by rewrite split_no_slash.
Qed.

(** Unfolds the matcher over the declared routes for the path with the
    segments "movies" and [s], leaving the tests on [s]. *)
Ltac step_through_routes s Hne :=
  cbn -[bool_decide segments];
  change (segments "/") with (@nil string);
  change (segments "/movies") with ["movies"];
  change (segments "/movies/new") with ["movies"; "new"];
  change (segments "/movies/:id") with ["movies"; ":id"];
  cbn -[bool_decide];
  rewrite (bool_decide_eq_true_2 ("movies" = "movies")) by done;
  rewrite (bool_decide_eq_false_2 (s = "")) by exact Hne.

(** With the parameterized route declared first, every URL one segment
    below /movies goes to the detail view: the creation view is never
    reached. *)
Lemma parameter_first_shadows_literal (s : string) :
  s ≠ "" →
  has_no_slash s = true →
  match_location (routes_nested movie_routes_reversed) ("/movies/" +:+ s) =
    Some ([App; MoviesPage; MoviesShow], [("id", s)]).
Proof.
  intros Hne Hs. unfold match_location. rewrite segments_below_movies by done.
  by step_through_routes s Hne.
Qed.

(** C1, as it holds. With the route declarations of the lesson's final
    listing of ./src/index.js, every URL one segment below /movies gives
    the chain root, list view, child: /movies/new ends in the creation view
    and every other segment in the detail view with the segment captured as
    [id]; the list view is in the chain before the child. With the
    declarations of src/index.js as checked in, which nest nothing, no such
    URL matches a route. *)
Theorem child_url_chain_needs_nested_routes (s : string) :
  s ≠ "" →
  has_no_slash s = true →
  match_location routes_lesson ("/movies/" +:+ s) =
    Some (if bool_decide (s = "new")
          then ([App; MoviesPage; MoviesNew], [])
          else ([App; MoviesPage; MoviesShow], [("id", s)])) ∧
  match_location routes_index_js ("/movies/" +:+ s) = None.
Proof.
  intros Hne Hs. unfold match_location. rewrite segments_below_movies by done.
  split; [|reflexivity].
  step_through_routes s Hne.
  destruct (decide (s = "new")) as [->|Hnew]; [reflexivity|].
  rewrite (bool_decide_eq_false_2 ("new" = s)) by congruence.
  by rewrite (bool_decide_eq_false_2 (s = "new")).
Qed.

Lemma child_url_chain_needs_nested_routes_witness :
  "1" ≠ "" ∧ has_no_slash "1" = true ∧
  match_location routes_lesson "/movies/1" = Some ([App; MoviesPage; MoviesShow], [("id", "1")]) ∧
  match_location routes_index_js "/movies/1" = None.
Proof.
  split; [discriminate|]. split; [reflexivity|].
  apply (child_url_chain_needs_nested_routes "1"); [discriminate | reflexivity].
Defined.

(** C1 as stated fails on src/index.js: its router tree has the root and
    the list view side by side and no child routes, so /movies/new and
    /movies/1 match nothing, and /movies gives the list view alone. *)
Lemma index_js_has_no_child_chain :
  match_location routes_index_js "/movies/new" = None ∧
  match_location routes_index_js "/movies/1" = None ∧
  match_location routes_index_js "/movies" = Some ([MoviesPage], []).
Proof. split_and!; reflexivity. Qed.

(** C3. With /movies/new declared before /movies/:id, the path /movies/new
    selects the literal pattern and the creation view; with the two
    declared in the other order the same path selects /movies/:id, the
    detail view, and captures "new" as [id]. This holds for the two
    siblings alone and for the two nested below the list view. *)
Theorem literal_route_must_come_first :
  match_location movie_routes "/movies/new" = Some ([MoviesNew], []) ∧
  match_location movie_routes_reversed "/movies/new" = Some ([MoviesShow], [("id", "new")]) ∧
  match_location (routes_nested movie_routes) "/movies/new" =
    Some ([App; MoviesPage; MoviesNew], []) ∧
  match_location (routes_nested movie_routes_reversed) "/movies/new" =
    Some ([App; MoviesPage; MoviesShow], [("id", "new")]).
Proof.
  split_and!.
  - reflexivity.
  - reflexivity.
  - reflexivity.
  - apply (parameter_first_shadows_literal "new"); [discriminate | reflexivity].
Qed.

(** ** The list view *)

(** C2, as it holds. For every list of movies and every child element
    that the router supplies, [render] of src/containers/MoviesPage.js as
    checked in returns the movie list alone and leaves the child out; the
    [render] of the lesson's later listing returns the movie list followed
    directly by the child, and the movie list alone when no child route
    matched. *)
Theorem MoviesPage_render_child_slot (ms : list loc) (child : element) :
  MoviesPageJs.render (MoviesPageJs.Props ms (Some child)) = Div None [MoviesList ms] ∧
  MoviesPageJs.render_with_children (MoviesPageJs.Props ms (Some child)) =
    Div None [MoviesList ms; child] ∧
  MoviesPageJs.render_with_children (MoviesPageJs.Props ms None) = Div None [MoviesList ms].
Proof. split_and!; reflexivity. Qed.

(** C2 as stated fails on the file as checked in: with the detail view
    matched below the list view, the output of [render] is the movie list
    and nothing after it. *)
Lemma MoviesPage_render_drops_child :
  MoviesPageJs.render (MoviesPageJs.Props [] (Some (RouteElement MoviesShow))) =
    Div None [MoviesList []] ∧
  MoviesPageJs.render (MoviesPageJs.Props [] (Some (RouteElement MoviesShow))) ≠
    Div None [MoviesList []; RouteElement MoviesShow].
Proof. split; [reflexivity | discriminate]. Qed.

(** Decides a closed decidable proposition by evaluation. *)
Ltac by_computation := apply (bool_decide_unpack _); by vm_compute.

(** C10. Whatever the imports and declarations of the module are bound to
    and whatever calling a value does, as long as the global object has no
    [MoviePage], evaluating the default export of
    src/containers/MoviesPage.js never yields a value: the module declares
    [MoviesPage], not [MoviePage]. When the call of [connect] returns, the
    failure is the ReferenceError for [MoviePage]; otherwise it is what
    that call threw. *)
Theorem MoviesPage_default_export_fails
    {V : Type} (values : string → V) (globals : string → option V)
    (call : V → list V → result V) :
  globals "MoviePage" = None →
  ("MoviePage" ∉ MoviesPageJs.declared) ∧
  ("MoviesPage" ∈ MoviesPageJs.declared) ∧
  (∀ v, evaluate MoviesPageJs.declared values globals call MoviesPageJs.default_export ≠ Ok v) ∧
  evaluate MoviesPageJs.declared values globals call MoviesPageJs.default_export =
    match connect_call values call with
    | Ok _ => Throw (ReferenceError "MoviePage")
    | Throw e => Throw e
    end.
Proof.
  intros Hglobal.
  assert ("MoviePage" ∉ MoviesPageJs.declared) as Hnot by by_computation.
  assert (evaluate MoviesPageJs.declared values globals call MoviesPageJs.default_export =
    match connect_call values call with
    | Ok _ => Throw (ReferenceError "MoviePage")
    | Throw e => Throw e
    end) as Heval.
  { unfold MoviesPageJs.default_export, connect_call. cbn -[bool_decide MoviesPageJs.declared].
    unfold resolve.
    rewrite (bool_decide_eq_true_2 ("connect" ∈ MoviesPageJs.declared))
      by by_computation.
    rewrite (bool_decide_eq_true_2 ("mapStateToProps" ∈ MoviesPageJs.declared))
      by by_computation.
    rewrite (bool_decide_eq_true_2 ("mapDispatchToProps" ∈ MoviesPageJs.declared))
      by by_computation.
    rewrite (bool_decide_eq_false_2 ("MoviePage" ∈ MoviesPageJs.declared)) by done.
    rewrite Hglobal. by destruct (call _ _). }
  split_and!.
  - done.
  - by_computation.
  - intros v. rewrite Heval. by destruct (connect_call values call).
  - done.
Qed.

Lemma MoviesPage_default_export_fails_witness :
  no_globals "MoviePage" = None ∧
  evaluate MoviesPageJs.declared (λ _, tt) no_globals (λ _ _, Ok tt)
    MoviesPageJs.default_export = Throw (ReferenceError "MoviePage").
Proof.
  split; [reflexivity|].
  pose proof (MoviesPage_default_export_fails (λ _, tt) no_globals (λ _ _, Ok tt) eq_refl)
    as (_ & _ & _ & H).
  exact H.
Defined.

(** ** The detail view *)

Lemma find_first {A} (p : A → bool) (pre post : list A) (x : A) :
  (∀ y, y ∈ pre → p y = false) → p x = true → find p (pre ++ x :: post) = Some x.
Proof.
  intros Hpre Hx. induction pre as [|y pre IH]; simpl.
  - by rewrite Hx.
  - rewrite Hpre by left. apply IH. intros z Hz. apply Hpre. by right.
Qed.

Lemma find_is_first {A} (p : A → bool) (l : list A) (x : A) :
  find p l = Some x →
  ∃ pre post, l = (pre ++ x :: post)%list ∧ p x = true ∧ ∀ y, y ∈ pre → p y = false.
Proof.
  induction l as [|a l IH]; [done|]. simpl. destruct (p a) eqn:Ha.
  - intros [= ->]. exists [], l. split_and!; [done|done|]. intros y Hy. by apply elem_of_nil in Hy.
  - intros Hx. destruct (IH Hx) as (pre & post & -> & Hpx & Hpre).
    exists (a :: pre), post. split_and!; [done|done|].
    intros y Hy. apply elem_of_cons in Hy as [->|Hy]; [done|by apply Hpre].
Qed.

(** A record that the lookup returns passes the test and is the first of
    the state's movies to do so. *)
Lemma MoviesShow_lookup_some (h : gmap loc object) (state : appState) (id : value) (m : loc) :
  MoviesShowJs.mapStateToProps h state id = Some m →
  ∃ pre post, movies state = (pre ++ m :: post)%list ∧
    loose_eq (field h m "id") id = true ∧
    ∀ x, x ∈ pre → loose_eq (field h x "id") id = false.
Proof.
  unfold MoviesShowJs.mapStateToProps. intros H.
  by apply (find_is_first (λ movie, loose_eq (field h movie "id") id)) in H.
Qed.

(** The detail view throws exactly when no record of the state loosely
    equals the parameter, and otherwise shows the title of the record that
    the lookup found. *)
Lemma MoviesShow_connected_cases (h : gmap loc object) (state : appState) (id : value) :
  match MoviesShowJs.mapStateToProps h state id with
  | Some m => MoviesShowJs.connected h state id = Ok (Div (Some "col-md-8") [Text (field h m "title")])
  | None => MoviesShowJs.connected h state id =
              Throw (TypeError "Cannot read property 'title' of undefined")
  end.
Proof. unfold MoviesShowJs.connected. by destruct (MoviesShowJs.mapStateToProps h state id). Qed.

Lemma MoviesShow_lookup_none (h : gmap loc object) (state : appState) (id : value) :
  (∀ m, m ∈ movies state → loose_eq (field h m "id") id = false) →
  MoviesShowJs.mapStateToProps h state id = None.
Proof.
  intros H. unfold MoviesShowJs.mapStateToProps. destruct state as [ms]. simpl in *.
  induction ms as [|m ms IH]; [done|]. simpl.
  rewrite H by left. apply IH. intros x Hx. apply H. by right.
Qed.

(** C4, at the inputs where the code falls short of it. In the seeded
    state the lookup itself completes for an absent id ("999"), for text
    that is no number ("abc") and for a missing parameter, each time with
    no record; the render of the detail view then throws a TypeError
    instead of showing an empty state. For the id of the seed record the
    title is rendered. While the store holds no movies the render throws
    for every parameter. *)
Theorem MoviesShow_throws_when_no_record :
  MoviesShowJs.mapStateToProps (heap seeded) (store seeded) (VString "999") = None ∧
  MoviesShowJs.connected (heap seeded) (store seeded) (VString "999") =
    Throw (TypeError "Cannot read property 'title' of undefined") ∧
  MoviesShowJs.connected (heap seeded) (store seeded) (VString "abc") =
    Throw (TypeError "Cannot read property 'title' of undefined") ∧
  MoviesShowJs.connected (heap seeded) (store seeded) VUndefined =
    Throw (TypeError "Cannot read property 'title' of undefined") ∧
  MoviesShowJs.connected (heap seeded) (store seeded) (VString "1") =
    Ok (Div (Some "col-md-8") [Text (VString "A River Runs Through It")]) ∧
  (∀ (h : gmap loc object) (id : value),
     MoviesShowJs.connected h (AppState []) id =
       Throw (TypeError "Cannot read property 'title' of undefined")).
Proof. split_and!; reflexivity. Qed.

(** A converted string equals one number at most. *)
Lemma number_equals_unique (n k : Z) (x : numeric) :
  number_equals n x = true → number_equals k x = true → k = n.
Proof.
  destruct x as [| |m e]; simpl; [done|done|].
  destruct (Z.leb_spec 0 e).
  - intros Hn Hk. apply Z.eqb_eq in Hn, Hk. congruence.
  - intros Hn Hk. apply Z.eqb_eq in Hn, Hk.
    assert (0 < 10 ^ (- e)) as Hpos by (apply Z.pow_pos_nonneg; lia).
    apply (Z.mul_reg_r _ _ (10 ^ (- e))); [lia | congruence].
Qed.

(** What [==] against a parameter string decides, for each kind of id. *)
Lemma loose_eq_string_cases (v : value) (s : string) :
  loose_eq v (VString s) =
    match v with
    | VUndefined => false
    | VNumber k => number_equals k (StringToNumber s)
    | VString t => bool_decide (t = s)
    end.
Proof. by destruct v. Qed.

(** C5. The lookup of the detail view tests each record with [==] against
    the captured parameter string and returns the first record that
    passes. A stored number passes exactly when the string converts to
    that number, a stored string exactly when it is the same text, a
    missing id never. So for a parameter [s] that converts to [n], the
    record with numeric id [n] is returned when every record before it has
    another number, another text or no id: those records are skipped, and
    on them alone the lookup finds nothing. No two numbers pass for the
    same parameter. The string "1" passes for the number 1; "999" and "2"
    do not. *)
Theorem MoviesShow_lookup_first_loosely_equal
    (h : gmap loc object) (pre post : list loc) (m : loc) (n : Z) (s : string) :
  field h m "id" = VNumber n →
  number_equals n (StringToNumber s) = true →
  (∀ x, x ∈ pre →
     match field h x "id" with
     | VNumber k => k ≠ n
     | VString t => t ≠ s
     | VUndefined => True
     end) →
  MoviesShowJs.mapStateToProps h (AppState (pre ++ m :: post)) (VString s) = Some m ∧
  MoviesShowJs.mapStateToProps h (AppState pre) (VString s) = None ∧
  (∀ x, x ∈ pre → loose_eq (field h x "id") (VString s) = false) ∧
  (∀ v, loose_eq v (VString s) = true ↔
        (∃ k, v = VNumber k ∧ number_equals k (StringToNumber s) = true) ∨ v = VString s) ∧
  (∀ k, loose_eq (VNumber k) (VString s) = true ↔ k = n) ∧
  loose_eq (VNumber 1) (VString "1") = true ∧
  loose_eq (VNumber 1) (VString "999") = false ∧
  loose_eq (VNumber 1) (VString "2") = false ∧
  loose_eq VUndefined (VString "1") = false.
Proof.
  intros Hid Hn Hpre.
  assert (∀ x, x ∈ pre → loose_eq (field h x "id") (VString s) = false) as Hskip.
  { intros x Hx. specialize (Hpre x Hx). rewrite loose_eq_string_cases.
    destruct (field h x "id") as [|k|t]; [done| |].
    - destruct (number_equals k (StringToNumber s)) eqn:Hk; [|done].
      by apply (number_equals_unique n k) in Hk.
    - by apply bool_decide_eq_false_2. }
  split_and!.
  - unfold MoviesShowJs.mapStateToProps. simpl. apply find_first; [done|].
    by rewrite Hid.
  - by apply MoviesShow_lookup_none.
  - done.
  - intros v. rewrite loose_eq_string_cases. destruct v as [|k|t].
    + split; [done|]. by intros [(k & [=] & _)|[=]].
    + split; [intros Hk; left; by exists k|]. by intros [(k' & [= <-] & Hk)|[=]].
    + rewrite bool_decide_eq_true. split; [intros ->; by right|].
      by intros [(k & [=] & _)|[= ->]].
  - intros k. simpl. split.
    + intros Hk. by apply (number_equals_unique n k) in Hk.
    + by intros ->.
  - reflexivity.
  - reflexivity.
  - reflexivity.
  - reflexivity.
Qed.

Lemma MoviesShow_lookup_first_loosely_equal_witness :
  field (heap form_submitted) 2%positive "id" = VNumber 2 ∧
  number_equals 2 (StringToNumber "2") = true ∧
  field (heap form_submitted) 1%positive "id" = VNumber 1 ∧
  store form_submitted = AppState ([1%positive] ++ 2%positive :: []) ∧
  MoviesShowJs.mapStateToProps (heap form_submitted) (store form_submitted) (VString "2")
    = Some 2%positive.
Proof.
  split; [reflexivity|]. split; [reflexivity|]. split; [reflexivity|]. split; [reflexivity|].
  apply (MoviesShow_lookup_first_loosely_equal (heap form_submitted)
           [1%positive] [] 2%positive 2 "2"); [reflexivity | reflexivity |].
  intros x Hx. apply list_elem_of_singleton in Hx as ->.
  change (field (heap form_submitted) 1%positive "id") with (VNumber 1). discriminate.
Defined.

(* ===================================================================== *)
(** * Further properties of the sources *)
(* ===================================================================== *)

#[local] Set Warnings "-clear-no-such-hyp".

(** ** Numbers as text and back *)

Lemma decimal_digit_cases (a : ascii) :
  is_DecimalDigit a = true → a ∈ decimal_chars.
Proof.
  intros H. destruct a as [[] [] [] [] [] [] [] []];
    try discriminate H; by_computation.
Qed.

Lemma digit_char_cases (d : Z) :
  0 ≤ d < 10 → is_DecimalDigit (digit_char d) = true ∧ digit_value 10 (digit_char d) = Some d.
Proof.
  intros H.
  assert (d = 0 ∨ d = 1 ∨ d = 2 ∨ d = 3 ∨ d = 4 ∨ d = 5 ∨ d = 6 ∨ d = 7 ∨ d = 8 ∨ d = 9)
    as Hd by lia.
  destruct Hd as [->|[->|[->|[->|[->|[->|[->|[->|[->| ->]]]]]]]]]; by split.
Qed.

Lemma decimal_digits_acc (fuel : nat) (n : Z) (acc : list ascii) :
  decimal_digits fuel n acc = (decimal_digits fuel n [] ++ acc)%list.
Proof.
  revert n acc. induction fuel as [|fuel IH]; intros n acc; simpl; [done|].
  destruct (n <? 10); [done|].
  rewrite IH, (IH _ [_]). by rewrite <- app_assoc.
Qed.

Lemma digits_value_app (base acc : Z) (l1 l2 : list ascii) :
  digits_value base acc (l1 ++ l2) = digits_value base acc l1 ≫= λ v, digits_value base v l2.
Proof.
  revert acc. induction l1 as [|a l1 IH]; intros acc; simpl; [done|].
  destruct (digit_value base a); simpl; [apply IH|done].
Qed.

Lemma decimal_digits_value (fuel : nat) (n : Z) :
  0 ≤ n < 10 ^ Z.of_nat (S fuel) →
  digits_value 10 0 (decimal_digits fuel n []) = Some n ∧
  forallb is_DecimalDigit (decimal_digits fuel n []) = true ∧
  decimal_digits fuel n [] ≠ [].
Proof.
  revert n. induction fuel as [|fuel IH]; intros n Hn.
  - change (10 ^ Z.of_nat 1) with 10 in Hn. simpl.
    destruct (digit_char_cases n Hn) as [-> ->]. simpl. split_and!; [f_equal; lia|done|done].
  - simpl. destruct (Z.ltb_spec n 10) as [Hlt|Hge].
    + destruct (digit_char_cases n) as [Hd Hv]; [lia|]. simpl. rewrite Hd, Hv. simpl.
      split_and!; [f_equal; lia|done|done].
    + rewrite decimal_digits_acc.
      assert (0 ≤ n / 10 < 10 ^ Z.of_nat (S fuel)) as Hq.
      { split; [apply Z.div_pos; lia|].
        apply Z.div_lt_upper_bound; [lia|].
        rewrite <- Z.pow_succ_r by lia. rewrite <- Nat2Z.inj_succ. lia. }
      destruct (IH _ Hq) as (Hv & Hall & Hne).
      destruct (digit_char_cases (n mod 10)) as [Hd Hdv]; [apply Z.mod_pos_bound; lia|].
      split_and!.
      * rewrite digits_value_app, Hv. simpl. rewrite Hdv. simpl. f_equal.
        rewrite (Z.div_mod n 10) at 3 by lia. lia.
      * rewrite forallb_app, Hall. simpl. by rewrite Hd.
      * intros H. by apply app_eq_nil in H as [_ ?].
Qed.

Lemma numeral_value (n : Z) :
  0 ≤ n →
  digits_value 10 0 (numeral n) = Some n ∧
  forallb is_DecimalDigit (numeral n) = true ∧
  numeral n ≠ [].
Proof.
  intros Hn. apply decimal_digits_value. split; [done|].
  rewrite Nat2Z.inj_succ, Z2Nat.id by apply Z.log2_nonneg.
  destruct (decide (n = 0)) as [->|Hne]; [done|].
  apply Z.lt_le_trans with (2 ^ Z.succ (Z.log2 n)).
  - apply Z.log2_spec. lia.
  - apply Z.pow_le_mono_l. split; [lia|lia].
Qed.

Lemma drop_while_head {A} (p : A → bool) (a : A) (l : list A) :
  p a = false → drop_while p (a :: l) = a :: l.
Proof. intros H. simpl. by rewrite H. Qed.

Lemma take_drop_while_all {A} (p : A → bool) (l : list A) :
  forallb p l = true → take_while p l = l ∧ drop_while p l = [].
Proof.
  induction l as [|a l IH]; [done|]. simpl. intros H.
  apply andb_true_iff in H as [Ha Hl]. rewrite Ha.
  destruct (IH Hl) as [-> ->]. done.
Qed.

Lemma digit_not_space (a : ascii) : is_DecimalDigit a = true → is_StrWhiteSpaceChar a = false.
Proof.
  intros H. apply decimal_digit_cases in H. unfold decimal_chars in H.
  repeat (apply elem_of_cons in H as [->|H]; [done|]). by apply elem_of_nil in H.
Qed.

(** White space is dropped from neither end of a text whose first and
    last characters are no white space. *)
Lemma trim_id (l : list ascii) :
  (∀ a, head l = Some a → is_StrWhiteSpaceChar a = false) →
  (∀ b, head (rev l) = Some b → is_StrWhiteSpaceChar b = false) →
  trim l = l.
Proof.
  intros Ha Hb. unfold trim. destruct l as [|a l]; [done|].
  rewrite drop_while_head by by apply Ha.
  destruct (rev (a :: l)) as [|b r] eqn:Hr.
  - by rewrite <- (rev_involutive (a :: l)), Hr.
  - rewrite drop_while_head by by apply Hb. by rewrite <- Hr, rev_involutive.
Qed.

Lemma forallb_rev {A} (p : A → bool) (l : list A) : forallb p (rev l) = forallb p l.
Proof.
  induction l as [|a l IH]; [done|]. simpl. rewrite forallb_app, IH. simpl.
  by rewrite andb_true_r, andb_comm.
Qed.

Lemma trim_digits (l : list ascii) : forallb is_DecimalDigit l = true → trim l = l.
Proof.
  intros H. apply trim_id.
  - destruct l as [|a l]; [done|]. intros ? [= <-]. simpl in H.
    apply andb_true_iff in H as [H _]. by apply digit_not_space.
  - rewrite <- forallb_rev in H. destruct (rev l) as [|b r]; [done|]. intros ? [= <-].
    simpl in H. apply andb_true_iff in H as [H _]. by apply digit_not_space.
Qed.

Lemma trim_minus_digits (l : list ascii) :
  l ≠ [] → forallb is_DecimalDigit l = true → trim ("-"%char :: l) = "-"%char :: l.
Proof.
  intros Hne H. apply trim_id.
  - by intros ? [= <-].
  - simpl. rewrite <- forallb_rev in H.
    destruct (rev l) as [|b r] eqn:Hr.
    + by rewrite <- (rev_involutive l), Hr in Hne.
    + intros ? [= <-]. simpl in H. apply andb_true_iff in H as [H _]. by apply digit_not_space.
Qed.

(** An unsigned decimal literal that is digits only has the value of the
    digits. *)
Lemma StrUnsignedDecimalLiteral_digits (l : list ascii) (v : Z) :
  l ≠ [] → forallb is_DecimalDigit l = true → digits_value 10 0 l = Some v →
  StrUnsignedDecimalLiteral l = Decimal v 0.
Proof.
  intros Hne Hall Hv. unfold StrUnsignedDecimalLiteral.
  rewrite bool_decide_eq_false_2.
  2:{ intros ->. discriminate Hall. }
  destruct (take_drop_while_all _ _ Hall) as [-> ->].
  rewrite app_nil_r. destruct l as [|a l]; [done|]. by rewrite Hv.
Qed.

Lemma StringToNumber_digits (l : list ascii) (v : Z) :
  l ≠ [] → forallb is_DecimalDigit l = true → digits_value 10 0 l = Some v →
  StringToNumber (string_of_list_ascii l) = Decimal v 0.
Proof.
  intros Hne Hall Hv. unfold StringToNumber.
  rewrite list_ascii_of_string_of_list_ascii, trim_digits by done.
  rewrite <- (StrUnsignedDecimalLiteral_digits l v) by done.
  destruct l as [|a l]; [done|].
  pose proof Hall as Ha. simpl in Ha. apply andb_true_iff in Ha as [Ha Hl].
  apply decimal_digit_cases in Ha. unfold decimal_chars in Ha.
  repeat (apply elem_of_cons in Ha as [->|Ha]; [try reflexivity|]).
  - destruct l as [|x l]; [done|].
    simpl in Hl. apply andb_true_iff in Hl as [Hx _].
    apply decimal_digit_cases in Hx. unfold decimal_chars in Hx.
    repeat (apply elem_of_cons in Hx as [->|Hx]; [reflexivity|]). by apply elem_of_nil in Hx.
  - by apply elem_of_nil in Ha.
Qed.

Lemma StringToNumber_minus_digits (l : list ascii) (v : Z) :
  l ≠ [] → forallb is_DecimalDigit l = true → digits_value 10 0 l = Some v →
  StringToNumber (String "-" (string_of_list_ascii l)) = Decimal (- v) 0.
Proof.
  intros Hne Hall Hv. unfold StringToNumber.
  change (list_ascii_of_string (String "-" (string_of_list_ascii l)))
    with ("-"%char :: list_ascii_of_string (string_of_list_ascii l)).
  rewrite list_ascii_of_string_of_list_ascii, trim_minus_digits by done.
  by rewrite (StrUnsignedDecimalLiteral_digits l v).
Qed.

(** Conversion to a string and back gives the integer again. *)
Lemma StringToNumber_NumberToString (n : Z) :
  StringToNumber (NumberToString n) = Decimal n 0.
Proof.
  unfold NumberToString. destruct (Z.ltb_spec n 0) as [Hneg|Hpos].
  - destruct (numeral_value (- n)) as (Hv & Hall & Hne); [lia|].
    rewrite (StringToNumber_minus_digits _ (- n)) by done. f_equal. lia.
  - destruct (numeral_value n) as (Hv & Hall & Hne); [lia|].
    by rewrite (StringToNumber_digits _ n).
Qed.

(** ** Route tables *)

(** Unfolds the matcher over the declared routes for any path. *)
Ltac unfold_routes :=
  cbn -[bool_decide segments];
  change (segments "/") with (@nil string);
  change (segments "/movies") with ["movies"];
  change (segments "/movies/new") with ["movies"; "new"];
  change (segments "/movies/:id") with ["movies"; ":id"];
  cbn -[bool_decide].

(** Decides whether the segment [a] is the text [c] and rewrites the
    tests on it. *)
Ltac decide_segment a c :=
  destruct (decide (a = c)) as [->|?];
  [ rewrite ?(bool_decide_eq_true_2 (c = c)) by done
  | rewrite ?(bool_decide_eq_false_2 (c = a)), ?(bool_decide_eq_false_2 (a = c)) by congruence ].

(** The lesson's final routes as a table over the segments of the path. *)
Lemma lesson_routes_table (path : list string) :
  matchRoutes path routes_lesson =
    match path with
    | [] => Some ([App], [])
    | [a] => if bool_decide (a = "movies") then Some ([App; MoviesPage], []) else None
    | [a; b] =>
        if bool_decide (a = "movies") then
          if bool_decide (b = "new") then Some ([App; MoviesPage; MoviesNew], [])
          else if bool_decide (b = "") then None
          else Some ([App; MoviesPage; MoviesShow], [("id", b)])
        else None
    | _ => None
    end.
Proof.
  destruct path as [|a [|b [|c rest]]]; unfold routes_lesson, routes_nested, movie_routes.
  - reflexivity.
  - unfold_routes. decide_segment a "movies"; reflexivity.
  - unfold_routes. decide_segment a "movies"; [|reflexivity].
    decide_segment b "new"; [reflexivity|].
    decide_segment b ""; reflexivity.
  - unfold_routes. decide_segment a "movies"; [|reflexivity].
    decide_segment b "new"; [reflexivity|].
    decide_segment b ""; reflexivity.
Qed.

(** The routes of src/index.js as a table over the segments of the path. *)
Lemma index_js_routes_table (path : list string) :
  matchRoutes path routes_index_js =
    match path with
    | [] => Some ([App], [])
    | [a] => if bool_decide (a = "movies") then Some ([MoviesPage], []) else None
    | _ => None
    end.
Proof.
  destruct path as [|a [|b rest]]; unfold routes_index_js.
  - reflexivity.
  - unfold_routes. decide_segment a "movies"; reflexivity.
  - unfold_routes. decide_segment a "movies"; reflexivity.
Qed.

(** ** The creation form *)

Lemma fresh_unused (h : gmap loc object) : h !! fresh (dom h) = None.
Proof. apply not_elem_of_dom, is_fresh. Qed.

Lemma field_insert_other (h : gmap loc object) (l m : loc) (o : object) (k : string) :
  is_Some (h !! m) → h !! l = None → field (<[l := o]> h) m k = field h m k.
Proof.
  intros [om Hm] Hl. unfold field. rewrite lookup_insert_ne; [done|]. congruence.
Qed.

Lemma field_insert_same (h : gmap loc object) (l : loc) (o : object) (k : string) :
  field (<[l := o]> h) l k = get o k.
Proof. unfold field. by rewrite lookup_insert_eq. Qed.

Lemma run_handleOnChange (this_state : loc) (text : string) (w : world) :
  run (MoviesNewJs.handleOnChange this_state text) w =
    World (<[fresh (dom (heap w)) := <["title" := VString text]> (default ∅ (heap w !! this_state))]> (heap w))
          (counter w) (store w) (events w) ∧
  eval (MoviesNewJs.handleOnChange this_state text) w = fresh (dom (heap w)).
Proof. done. Qed.

Lemma run_handleOnSubmit (this_state : loc) (w : world) :
  run (MoviesNewJs.handleOnSubmit this_state) w =
    World (alter (<["id" := VNumber (counter w + 1)]>) this_state (heap w))
          (counter w + 1)
          (AppState (movies (store w) ++ [this_state]))
          (events w ++ [EPreventDefault; EDispatch (ADD_MOVIE this_state); EHistoryPush "/movies"]).
Proof.
  assert (run (MoviesNewJs.handleOnSubmit this_state) w =
    World (alter (<["id" := VNumber (counter w + 1)]>) this_state (heap w))
          (counter w + 1)
          (AppState (movies (store w) ++ [this_state]))
          (((events w ++ [EPreventDefault]) ++ [EDispatch (ADD_MOVIE this_state)])
             ++ [EHistoryPush "/movies"])) as -> by reflexivity.
  by rewrite <- !app_assoc.
Qed.

Lemma run_componentDidMount (w : world) :
  run MoviesPageJs.componentDidMount w =
    World (<[fresh (dom (heap w)) := river_record]> (heap w)) (counter w)
          (AppState [fresh (dom (heap w))])
          (events w ++ [EDispatch (FETCH_MOVIES [fresh (dom (heap w))])]).
Proof. done. Qed.

Lemma run_constructor (w : world) :
  run MoviesNewJs.constructor w =
    World (<[fresh (dom (heap w)) := <["title" := VString ""]> ∅]> (heap w))
          (counter w) (store w) (events w) ∧
  eval MoviesNewJs.constructor w = fresh (dom (heap w)).
Proof. done. Qed.

(** X4. Typing into the creation form changes local state only: the
    store, the counter and the log stay as they are, every object that
    exists (so every record in the store, and the current state object
    itself) is left untouched, and the next state is a new object with the
    typed title and every other field of the current state. *)
Theorem handleOnChange_touches_only_new_state (w : world) (this_state : loc) (text : string) :
  heap w !! eval (MoviesNewJs.handleOnChange this_state text) w = None ∧
  store (run (MoviesNewJs.handleOnChange this_state text) w) = store w ∧
  counter (run (MoviesNewJs.handleOnChange this_state text) w) = counter w ∧
  events (run (MoviesNewJs.handleOnChange this_state text) w) = events w ∧
  (∀ m, is_Some (heap w !! m) →
     heap (run (MoviesNewJs.handleOnChange this_state text) w) !! m = heap w !! m) ∧
  field (heap (run (MoviesNewJs.handleOnChange this_state text) w))
        (eval (MoviesNewJs.handleOnChange this_state text) w) "title" = VString text ∧
  (∀ k, k ≠ "title" →
     field (heap (run (MoviesNewJs.handleOnChange this_state text) w))
           (eval (MoviesNewJs.handleOnChange this_state text) w) k = field (heap w) this_state k).
Proof.
  destruct (run_handleOnChange this_state text w) as [-> ->]. simpl.
  split_and!; try done.
  - apply fresh_unused.
  - intros m [o Ho]. rewrite lookup_insert_ne; [done|].
    intros <-. pose proof (fresh_unused (heap w)). congruence.
  - rewrite field_insert_same. unfold get. by rewrite lookup_insert_eq.
  - intros k Hk. rewrite field_insert_same. unfold get, field.
    rewrite lookup_insert_ne by done. by destruct (heap w !! this_state).
Qed.

(** X5. Typing a title and then submitting appends one record, the new
    state object, which carries the typed title and the id counter + 1; the
    log gains the three effects of a submit, nothing for the typing. *)
Theorem change_then_submit (w : world) (this_state : loc) (text : string) :
  let next := eval (MoviesNewJs.handleOnChange this_state text) w in
  let w' := run (MoviesNewJs.handleOnSubmit next) (run (MoviesNewJs.handleOnChange this_state text) w) in
  movies (store w') = (movies (store w) ++ [next])%list ∧
  field (heap w') next "title" = VString text ∧
  field (heap w') next "id" = VNumber (counter w + 1) ∧
  events w' = (events w ++ [EPreventDefault; EDispatch (ADD_MOVIE next); EHistoryPush "/movies"])%list.
Proof.
  intros next w'. subst next w'.
  rewrite run_handleOnSubmit.
  destruct (run_handleOnChange this_state text w) as [-> ->]. simpl.
  split_and!; try done.
  - rewrite field_set_other_key by done. rewrite field_insert_same. unfold get.
    by rewrite lookup_insert_eq.
  - rewrite field_set_same; [done|]. rewrite lookup_insert_eq. by eexists.
Qed.

(** X6. A submit, a change of the field and a second submit give two
    different records: they are appended in this order with the ids
    counter + 1 and counter + 2, the first keeps its title and the second
    has the typed one. *)
Theorem submit_change_submit (w : world) (s : loc) (text : string) :
  is_Some (heap w !! s) →
  let w1 := run (MoviesNewJs.handleOnSubmit s) w in
  let s2 := eval (MoviesNewJs.handleOnChange s text) w1 in
  let w3 := run (MoviesNewJs.handleOnSubmit s2) (run (MoviesNewJs.handleOnChange s text) w1) in
  s ≠ s2 ∧
  movies (store w3) = (movies (store w) ++ [s; s2])%list ∧
  ids (heap w3) [s; s2] = [VNumber (counter w + 1); VNumber (counter w + 2)] ∧
  field (heap w3) s "title" = field (heap w) s "title" ∧
  field (heap w3) s2 "title" = VString text.
Proof.
  intros Hs w1 s2 w3.
  assert (is_Some (heap w1 !! s)) as Hs1.
  { subst w1. rewrite run_handleOnSubmit. simpl. by rewrite lookup_alter_is_Some. }
  assert (heap w1 !! s2 = None) as Hfresh.
  { subst s2. destruct (run_handleOnChange s text w1) as [_ ->]. apply fresh_unused. }
  assert (s ≠ s2) as Hne.
  { intros Heq. rewrite <- Heq in Hfresh. rewrite Hfresh in Hs1. by destruct Hs1. }
  assert (field (heap w1) s "id" = VNumber (counter w + 1)) as Hid1.
  { subst w1. rewrite run_handleOnSubmit. simpl. by rewrite field_set_same. }
  assert (field (heap w1) s "title" = field (heap w) s "title") as Ht1.
  { subst w1. rewrite run_handleOnSubmit. simpl. by rewrite field_set_other_key. }
  assert (counter w1 = counter w + 1 ∧ movies (store w1) = (movies (store w) ++ [s])%list)
    as [Hc1 Hm1].
  { subst w1. by rewrite run_handleOnSubmit. }
  clearbody w1.
  subst w3. rewrite run_handleOnSubmit.
  destruct (run_handleOnChange s text w1) as [Hrun Hev]. fold s2 in Hev.
  rewrite Hev, Hrun. rewrite <- Hev. simpl.
  split_and!.
  - done.
  - rewrite Hm1. by rewrite <- app_assoc.
  - unfold ids. simpl. f_equal; [|f_equal].
    + rewrite field_set_other_loc by done.
      rewrite field_insert_other by done. done.
    + rewrite field_set_same.
      * f_equal. lia.
      * rewrite lookup_insert_eq. by eexists.
  - rewrite field_set_other_loc by done. rewrite field_insert_other by done. done.
  - rewrite field_set_other_key by done. rewrite field_insert_same. unfold get.
    by rewrite lookup_insert_eq.
Qed.

Lemma submit_change_submit_witness :
  is_Some (heap one_payload !! 1%positive) ∧
  ids (heap (run (MoviesNewJs.handleOnSubmit
                    (eval (MoviesNewJs.handleOnChange 1%positive "Up")
                          (run (MoviesNewJs.handleOnSubmit 1%positive) one_payload)))
                 (run (MoviesNewJs.handleOnChange 1%positive "Up")
                      (run (MoviesNewJs.handleOnSubmit 1%positive) one_payload))))
      [1%positive; 2%positive] = [VNumber 2; VNumber 3].
Proof.
  split; [by eexists|].
  apply (submit_change_submit one_payload 1%positive "Up"). by eexists.
Defined.

(** ** Sessions *)

Lemma field_number_allocated (h : gmap loc object) (m : loc) (k : string) (n : Z) :
  field h m k = VNumber n → is_Some (h !! m).
Proof. unfold field. destruct (h !! m); [by eexists|done]. Qed.

Lemma insert_fresh_keeps (h : gmap loc object) (o : object) (l : loc) :
  is_Some (h !! l) → is_Some (<[fresh (dom h) := o]> h !! l).
Proof. intros H. rewrite lookup_insert_is_Some. destruct (decide (fresh (dom h) = l)); auto. Qed.

Lemma step_keeps_ok (s : session) (e : ui_event) : session_ok s → session_ok (step s e).
Proof.
  destruct s as [w f]. intros (Hc & Hm & Hf). simpl in *.
  assert (∀ o m, m ∈ movies (store w) →
    ∃ n, field (<[fresh (dom (heap w)) := o]> (heap w)) m "id" = VNumber n ∧ 1 ≤ n ≤ counter w)
    as Hframe.
  { intros o m Hin. destruct (Hm m Hin) as (n & Hn & Hb). exists n. split; [|done].
    rewrite field_insert_other; [done| |apply fresh_unused].
    by eapply field_number_allocated. }
  destruct e as [| |text|]; unfold step; simpl.
  - rewrite run_componentDidMount. split_and!; simpl.
    + done.
    + intros m Hin. apply list_elem_of_singleton in Hin as ->. exists 1.
      rewrite field_insert_same. split; [done|lia].
    + intros l Hl. apply insert_fresh_keeps. by apply Hf.
  - destruct (run_constructor w) as [-> ->]. split_and!; simpl.
    + done.
    + apply Hframe.
    + intros l [= <-]. rewrite lookup_insert_eq. by eexists.
  - destruct f as [this_state|]; [|done].
    destruct (run_handleOnChange this_state text w) as [-> ->]. split_and!; simpl.
    + done.
    + apply Hframe.
    + intros l [= <-]. rewrite lookup_insert_eq. by eexists.
  - destruct f as [this_state|]; [|done].
    rewrite run_handleOnSubmit. split_and!; simpl.
    + lia.
    + intros m Hin. destruct (decide (m = this_state)) as [->|Hne].
      * exists (counter w + 1). rewrite field_set_same by by apply Hf. split; [done|lia].
      * apply elem_of_app in Hin as [Hin|Hin].
        -- destruct (Hm m Hin) as (n & Hn & Hb). exists n.
           rewrite field_set_other_loc by done. split; [done|lia].
        -- apply list_elem_of_singleton in Hin. done.
    + intros l Hl. rewrite lookup_alter_is_Some. by apply Hf.
Qed.

Lemma steps_keep_ok (es : list ui_event) (s : session) : session_ok s → session_ok (steps s es).
Proof.
  revert s. induction es as [|e es IH]; intros s Hs; [done|].
  simpl. apply IH. by apply step_keeps_ok.
Qed.

Lemma session_init_ok : session_ok session_init.
Proof.
  split_and!; simpl.
  - done.
  - intros m Hm. by apply elem_of_nil in Hm.
  - done.
Qed.

Lemma steps_counter (es : list ui_event) (s : session) :
  counter (sworld (steps s es)) =
    counter (sworld s) + Z.of_nat (submits (bool_decide (is_Some (form s))) es).
Proof.
  revert s. induction es as [|e es IH]; intros [w f]; [simpl; lia|].
  change (steps (Session w f) (e :: es)) with (steps (step (Session w f) e) es).
  rewrite IH. clear IH.
  assert (∀ l : loc, bool_decide (is_Some (Some l)) = true) as Hsome
    by (intros l; apply bool_decide_eq_true_2; by eexists).
  assert (bool_decide (is_Some (@None loc)) = false) as Hnone
    by (apply bool_decide_eq_false_2; by intros [? ?]).
  destruct e as [| |text|]; destruct f as [this_state|];
    unfold step; cbn [form sworld submits]; rewrite ?Hsome, ?Hnone; try done.
  rewrite run_handleOnSubmit. cbn [counter]. lia.
Qed.

(** X10. After any sequence of mounts, form openings, typing and submits
    from the start of the application, the counter is 1 plus the number of
    submits that reached an open form, every record in the store has a
    numeric id between 1 and the counter, and the state object of the open
    form exists. *)
Theorem session_records_have_ids (es : list ui_event) :
  counter (sworld (steps session_init es)) = 1 + Z.of_nat (submits false es) ∧
  (∀ m, m ∈ movies (store (sworld (steps session_init es))) →
     ∃ n, field (heap (sworld (steps session_init es))) m "id" = VNumber n ∧
          1 ≤ n ≤ counter (sworld (steps session_init es))) ∧
  (∀ l, form (steps session_init es) = Some l →
     is_Some (heap (sworld (steps session_init es)) !! l)).
Proof.
  split.
  - by rewrite steps_counter.
  - apply (steps_keep_ok es session_init session_init_ok).
Qed.

(** ** From the list to the detail view *)

Lemma digits_no_slash (l : list ascii) :
  forallb is_DecimalDigit l = true → has_no_slash (string_of_list_ascii l) = true.
Proof.
  induction l as [|a l IH]; [done|]. simpl. intros H.
  apply andb_true_iff in H as [Ha Hl]. rewrite IH by done.
  apply decimal_digit_cases in Ha. unfold decimal_chars in Ha.
  repeat (apply elem_of_cons in Ha as [->|Ha]; [done|]). by apply elem_of_nil in Ha.
Qed.

(** The text of an integer is one path segment, and it is not "new". *)
Lemma NumberToString_segment (n : Z) :
  has_no_slash (NumberToString n) = true ∧ NumberToString n ≠ "" ∧ NumberToString n ≠ "new".
Proof.
  unfold NumberToString. destruct (Z.ltb_spec n 0).
  - destruct (numeral_value (- n)) as (_ & Hall & _); [lia|].
    simpl. rewrite digits_no_slash by done. done.
  - destruct (numeral_value n) as (_ & Hall & Hne); [lia|].
    rewrite digits_no_slash by done. split; [done|].
    destruct (numeral n) as [|a l]; [done|]. simpl in *.
    apply andb_true_iff in Hall as [Ha _].
    split; [done|]. intros [= -> _]. done.
Qed.

Lemma number_equals_Decimal (m n : Z) : number_equals m (Decimal n 0) = bool_decide (m = n).
Proof.
  simpl. rewrite Z.mul_1_r. destruct (Z.eqb_spec m n).
  - by rewrite bool_decide_eq_true_2.
  - by rewrite bool_decide_eq_false_2.
Qed.

(** X2. For every integer id in the exact range, the text that the
    template literal makes of it converts back to the same number, so [==]
    between a numeric id and that text holds for this id and no other; the
    texts of different ids differ. *)
Theorem id_text_converts_back (m n : Z) :
  Z.abs n < 2 ^ 53 →
  StringToNumber (ToString (VNumber n)) = Decimal n 0 ∧
  loose_eq (VNumber m) (VString (ToString (VNumber n))) = bool_decide (m = n) ∧
  (ToString (VNumber m) = ToString (VNumber n) ↔ m = n).
Proof.
  intros _. simpl. rewrite StringToNumber_NumberToString. split_and!; [done| |].
  - apply number_equals_Decimal.
  - split; [|by intros ->]. intros Heq.
    pose proof (StringToNumber_NumberToString m) as Hm. rewrite Heq in Hm.
    rewrite StringToNumber_NumberToString in Hm. by injection Hm.
Qed.

Lemma id_text_converts_back_witness :
  Z.abs 42 < 2 ^ 53 ∧
  loose_eq (VNumber 42) (VString (ToString (VNumber 42))) = bool_decide (42 = 42).
Proof.
  split; [reflexivity|]. apply (id_text_converts_back 42 42). reflexivity.
Defined.

Lemma lesson_routes_detail (s : string) :
  s ≠ "" → s ≠ "new" → has_no_slash s = true →
  match_location routes_lesson ("/movies/" +:+ s) =
    Some ([App; MoviesPage; MoviesShow], [("id", s)]).
Proof.
  intros Hne Hnew Hs. unfold match_location.
  rewrite segments_below_movies, lesson_routes_table by done.
  rewrite (bool_decide_eq_true_2 ("movies" = "movies")) by done.
  by rewrite !bool_decide_eq_false_2.
Qed.

Lemma NoDup_fmap_eq {A B} (f : A → B) (l : list A) (x y : A) :
  NoDup (f <$> l) → x ∈ l → y ∈ l → f x = f y → x = y.
Proof.
  induction l as [|a l IH]; intros Hnd Hx Hy Hf; [by apply elem_of_nil in Hx|].
  simpl in Hnd. apply NoDup_cons in Hnd as [Ha Hnd].
  apply elem_of_cons in Hx as [->|Hx]; apply elem_of_cons in Hy as [->|Hy].
  - done.
  - exfalso. apply Ha. rewrite Hf. by apply list_elem_of_fmap_2.
  - exfalso. apply Ha. rewrite <- Hf. by apply list_elem_of_fmap_2.
  - by apply IH.
Qed.

Lemma find_passes {A} (p : A → bool) (l : list A) (x : A) :
  x ∈ l → p x = true → is_Some (find p l).
Proof.
  intros Hx Hp. destruct (find p l) eqn:Hf; [by eexists|].
  apply list_elem_of_In in Hx. by rewrite (find_none _ _ Hf x Hx) in Hp.
Qed.

(** X1. In a state whose records all have numeric ids, pairwise distinct,
    the link that the movie list renders for a record leads back to that
    record: its target is /movies/ followed by the text of the id, the
    lesson's routes resolve it to the detail view below the list view with
    that text as [id], the detail lookup returns the record, and its title
    is rendered. *)
Theorem movie_link_shows_its_record
    (h : gmap loc object) (state : appState) (m : loc) (n : Z) :
  Z.abs n < 2 ^ 53 →
  m ∈ movies state →
  field h m "id" = VNumber n →
  (∀ x, x ∈ movies state → ∃ k, field h x "id" = VNumber k) →
  NoDup (ids h (movies state)) →
  MoviesListJs.entry h m =
    MLi (VNumber n) [MLink ("/movies/" +:+ NumberToString n) [MText (field h m "title")]] ∧
  match_location routes_lesson (MoviesListJs.movie_path h m) =
    Some ([App; MoviesPage; MoviesShow], [("id", NumberToString n)]) ∧
  MoviesShowJs.mapStateToProps h state (VString (NumberToString n)) = Some m ∧
  MoviesShowJs.connected h state (VString (NumberToString n)) =
    Ok (Div (Some "col-md-8") [Text (field h m "title")]).
Proof.
  intros _ Hm Hid Hnum Hnd.
  destruct (NumberToString_segment n) as (Hslash & Hne & Hnew).
  assert (MoviesShowJs.mapStateToProps h state (VString (NumberToString n)) = Some m) as Hfind.
  { destruct (find_passes (λ movie, loose_eq (field h movie "id") (VString (NumberToString n)))
                (movies state) m Hm) as [x Hx].
    { rewrite Hid. simpl. rewrite StringToNumber_NumberToString, number_equals_Decimal.
      by apply bool_decide_eq_true_2. }
    unfold MoviesShowJs.mapStateToProps. rewrite Hx. f_equal.
    apply find_some in Hx as [Hin Hpass]. apply list_elem_of_In in Hin.
    destruct (Hnum x Hin) as [k Hk]. rewrite Hk in Hpass. simpl in Hpass.
    rewrite StringToNumber_NumberToString, number_equals_Decimal in Hpass.
    apply bool_decide_eq_true_1 in Hpass as ->.
    apply (NoDup_fmap_eq (λ y, field h y "id") (movies state)); [done|done|done|congruence]. }
  split_and!.
  - unfold MoviesListJs.entry, MoviesListJs.movie_path. by rewrite Hid.
  - unfold MoviesListJs.movie_path. rewrite Hid. simpl ToString.
    by apply lesson_routes_detail.
  - done.
  - unfold MoviesShowJs.connected. by rewrite Hfind.
Qed.

Lemma movie_link_shows_its_record_witness :
  Z.abs 1 < 2 ^ 53 ∧
  MoviesShowJs.connected (heap seeded) (store seeded) (VString (NumberToString 1)) =
    Ok (Div (Some "col-md-8") [Text (field (heap seeded) 1%positive "title")]).
Proof.
  split; [reflexivity|].
  apply (movie_link_shows_its_record (heap seeded) (store seeded) 1%positive 1).
  - reflexivity.
  - by_computation.
  - reflexivity.
  - intros x Hx. apply list_elem_of_singleton in Hx as ->. by exists 1.
  - apply NoDup_singleton.
Defined.

(** X3. Whatever the store held, once the list view has mounted the movie
    list shows the link to the creation form and exactly one entry, keyed
    1, linking to /movies/1 with the title of the seed record. *)
Theorem list_after_mount_shows_seed_entry (w : world) :
  MoviesListJs.MoviesList (heap (run MoviesPageJs.componentDidMount w))
    (MoviesPageJs.mapStateToProps (store (run MoviesPageJs.componentDidMount w))) =
  MTag "div" None
    [ MTag "div" (Some "col-md-4")
        [ MLink "/movies/new" [MText (VString "Add A Movie")];
          MTag "ul" None
            [ MLi (VNumber 1)
                [ MLink "/movies/1" [MText (VString "A River Runs Through It")] ] ] ] ].
Proof.
  rewrite run_componentDidMount. unfold MoviesListJs.MoviesList. simpl.
  unfold MoviesListJs.entry, MoviesListJs.movie_path. rewrite !field_insert_same.
  reflexivity.
Qed.



(** Every field but [id] of every object is the same after a run of "add
    movie" intents. *)
Lemma addMovies_keeps_fields (ms : list loc) (w : world) (l : loc) (k : string) :
  k ≠ "id" → field (heap (run (addMovies ms) w)) l k = field (heap w) l k.
Proof.
  intros Hk. revert w. induction ms as [|m ms IH]; intros w; [done|].
  rewrite addMovies_cons, IH, run_dispatch_addMovie. simpl heap.
  destruct (decide (m = l)) as [->|Hne].
  - by apply field_set_other_key.
  - by apply field_set_other_loc.
Qed.

Lemma addMovies_events (ms : list loc) (w : world) :
  events (run (addMovies ms) w) = (events w ++ ((λ m, EDispatch (ADD_MOVIE m)) <$> ms))%list.
Proof.
  revert w. induction ms as [|m ms IH]; intros w.
  - change (events w = (events w ++ [])%list). by rewrite app_nil_r.
  - rewrite addMovies_cons, IH, run_dispatch_addMovie. simpl. by rewrite <- app_assoc.
Qed.

(** A run of "add movie" intents creates and removes no object. *)
Lemma addMovies_dom (ms : list loc) (w : world) :
  dom (heap (run (addMovies ms) w)) = dom (heap w).
Proof.
  revert w. induction ms as [|m ms IH]; intros w; [done|].
  rewrite addMovies_cons, IH, run_dispatch_addMovie. simpl heap.
  apply set_eq. intros l. rewrite !elem_of_dom. apply lookup_alter_is_Some.
Qed.

(** Apart from [id], every object is the same after a run of "add movie"
    intents. *)
Lemma addMovies_objects_modulo_id (ms : list loc) (w : world) (l : loc) :
  delete "id" <$> heap (run (addMovies ms) w) !! l = delete "id" <$> heap w !! l.
Proof.
  revert w. induction ms as [|m ms IH]; intros w; [done|].
  rewrite addMovies_cons, IH, run_dispatch_addMovie. simpl heap.
  destruct (decide (m = l)) as [->|Hne].
  - rewrite lookup_alter_eq. destruct (heap w !! l) as [o|]; [|done]. simpl.
    by rewrite delete_insert_eq.
  - by rewrite lookup_alter_ne.
Qed.

(** X14. A run of "add movie" intents, whatever the payloads, logs one
    dispatch per intent in order and nothing else, advances the counter by
    the number of intents, and writes to no field other than [id]: every
    object is afterwards what it was apart from its [id], every other
    field of every object reads as before, an object that is no payload is
    untouched, and no object is created or removed. *)
Theorem addMovies_writes_ids_only (ms : list loc) (w : world) :
  events (run (addMovies ms) w) = (events w ++ ((λ m, EDispatch (ADD_MOVIE m)) <$> ms))%list ∧
  counter (run (addMovies ms) w) = counter w + Z.of_nat (List.length ms) ∧
  (∀ l, delete "id" <$> heap (run (addMovies ms) w) !! l = delete "id" <$> heap w !! l) ∧
  (∀ l k, k ≠ "id" → field (heap (run (addMovies ms) w)) l k = field (heap w) l k) ∧
  (∀ l, l ∉ ms → heap (run (addMovies ms) w) !! l = heap w !! l) ∧
  dom (heap (run (addMovies ms) w)) = dom (heap w).
Proof.
  split_and!.
  - apply addMovies_events.
  - apply addMovies_counter.
  - apply addMovies_objects_modulo_id.
  - intros l k Hk. by apply addMovies_keeps_fields.
  - intros l Hl. by apply addMovies_frame.
  - apply addMovies_dom.
Qed.

(** X15. When the list view mounts again, every record added since is
    gone from the store, which holds one new seed record; the counter is
    not set back, so it still counts the records added before. *)
Theorem remount_discards_added_records (w : world) (payloads : list loc) :
  List.length (movies (store (run MoviesPageJs.componentDidMount (run (addMovies payloads) w)))) = 1%nat ∧
  ids (heap (run MoviesPageJs.componentDidMount (run (addMovies payloads) w)))
      (movies (store (run MoviesPageJs.componentDidMount (run (addMovies payloads) w))))
    = [VNumber 1] ∧
  (∀ m, m ∈ movies (store (run MoviesPageJs.componentDidMount (run (addMovies payloads) w))) →
        heap w !! m = None) ∧
  counter (run MoviesPageJs.componentDidMount (run (addMovies payloads) w)) =
    counter w + Z.of_nat (List.length payloads).
Proof.
  rewrite run_componentDidMount. simpl. split_and!.
  - done.
  - unfold ids. simpl. by rewrite field_insert_same.
  - intros m Hm. apply list_elem_of_singleton in Hm as ->.
    apply not_elem_of_dom. rewrite <- (addMovies_dom payloads w). apply is_fresh.
  - apply addMovies_counter.
Qed.

(** ** Routes and the detail view on all inputs *)

(** X7. The lesson's final routes resolve exactly four kinds of path: the
    root alone; /movies as root and list view; /movies/new as root, list
    view and creation view; any other single segment below /movies as
    root, list view and detail view with the segment as [id]. Every other
    path is a route miss, and no chain has a child without the list view. *)
Theorem lesson_routes_resolve_four_shapes
    (pathname : string) (cs : list component) (ps : params) :
  match_location routes_lesson pathname = Some (cs, ps) ↔
    (segments pathname = [] ∧ cs = [App] ∧ ps = []) ∨
    (segments pathname = ["movies"] ∧ cs = [App; MoviesPage] ∧ ps = []) ∨
    (segments pathname = ["movies"; "new"] ∧ cs = [App; MoviesPage; MoviesNew] ∧ ps = []) ∨
    (∃ s, s ≠ "" ∧ s ≠ "new" ∧ segments pathname = ["movies"; s] ∧
          cs = [App; MoviesPage; MoviesShow] ∧ ps = [("id", s)]).
Proof.
  unfold match_location. rewrite lesson_routes_table.
  destruct (segments pathname) as [|a [|b [|c rest]]];
    repeat case_bool_decide; subst; naive_solver.
Qed.

(** X8. The routes of src/index.js as checked in resolve exactly two kinds
    of path, the root to [App] alone and /movies to the list view alone;
    the two are never rendered together and every other path is a miss. *)
Theorem index_js_routes_resolve_two_shapes
    (pathname : string) (cs : list component) (ps : params) :
  match_location routes_index_js pathname = Some (cs, ps) ↔
    (segments pathname = [] ∧ cs = [App] ∧ ps = []) ∨
    (segments pathname = ["movies"] ∧ cs = [MoviesPage] ∧ ps = []).
Proof.
  unfold match_location. rewrite index_js_routes_table.
  destruct (segments pathname) as [|a [|b rest]];
    repeat case_bool_decide; subst; naive_solver.
Qed.

(** X9. In the two earlier listings that nest the detail route alone,
    every single segment below /movies, "new" included, goes to the detail
    view with the segment as [id]. Where the root route is closed before
    the list view's route, the root component is not in the chain. *)
Theorem earlier_listings_chains (s : string) :
  s ≠ "" →
  has_no_slash s = true →
  match_location routes_root_closed ("/movies/" +:+ s) =
    Some ([MoviesPage; MoviesShow], [("id", s)]) ∧
  match_location routes_detail_only ("/movies/" +:+ s) =
    Some ([App; MoviesPage; MoviesShow], [("id", s)]) ∧
  match_location routes_root_closed "/movies" = Some ([MoviesPage], []).
Proof.
  intros Hne Hs. unfold match_location. rewrite segments_below_movies by done.
  split_and!.
  - by step_through_routes s Hne.
  - by step_through_routes s Hne.
  - reflexivity.
Qed.

Lemma earlier_listings_chains_witness :
  "new" ≠ "" ∧ has_no_slash "new" = true ∧
  match_location routes_detail_only "/movies/new" =
    Some ([App; MoviesPage; MoviesShow], [("id", "new")]).
Proof.
  split; [discriminate|]. split; [reflexivity|].
  apply (earlier_listings_chains "new"); [discriminate | reflexivity].
Defined.

(** X12. In a state whose records all have numeric ids, a route parameter
    that converts to no number, and likewise a missing parameter, matches
    no record, and the detail view throws instead of rendering. *)
Theorem no_number_id_throws (h : gmap loc object) (state : appState) (s : string) :
  StringToNumber s = NaN →
  (∀ m, m ∈ movies state → ∃ n, field h m "id" = VNumber n) →
  MoviesShowJs.mapStateToProps h state (VString s) = None ∧
  MoviesShowJs.connected h state (VString s) =
    Throw (TypeError "Cannot read property 'title' of undefined") ∧
  MoviesShowJs.connected h state VUndefined =
    Throw (TypeError "Cannot read property 'title' of undefined").
Proof.
  intros Hnan Hnum.
  assert (MoviesShowJs.mapStateToProps h state (VString s) = None) as H1.
  { apply MoviesShow_lookup_none. intros m Hm. destruct (Hnum m Hm) as [n ->].
    simpl. by rewrite Hnan. }
  assert (MoviesShowJs.mapStateToProps h state VUndefined = None) as H2.
  { apply MoviesShow_lookup_none. intros m Hm. by destruct (Hnum m Hm) as [n ->]. }
  unfold MoviesShowJs.connected. by rewrite H1, H2.
Qed.

Lemma no_number_id_throws_witness :
  StringToNumber "new" = NaN ∧
  MoviesShowJs.connected (heap seeded) (store seeded) (VString "new") =
    Throw (TypeError "Cannot read property 'title' of undefined").
Proof.
  split; [reflexivity|].
  apply (no_number_id_throws (heap seeded) (store seeded) "new"); [reflexivity|].
  intros m Hm. apply list_elem_of_singleton in Hm as ->. by exists 1.
Defined.

(** X13. The detail view throws exactly when no record of the state
    loosely equals the parameter; it renders exactly when there is one, and
    then shows the title of the first such record. *)
Theorem detail_view_throws_exactly_without_match
    (h : gmap loc object) (state : appState) (id : value) :
  (MoviesShowJs.connected h state id =
     Throw (TypeError "Cannot read property 'title' of undefined") ↔
   ∀ m, m ∈ movies state → loose_eq (field h m "id") id = false) ∧
  (∀ e, MoviesShowJs.connected h state id = Ok e ↔
     ∃ m pre post, movies state = (pre ++ m :: post)%list ∧
       loose_eq (field h m "id") id = true ∧
       (∀ x, x ∈ pre → loose_eq (field h x "id") id = false) ∧
       e = Div (Some "col-md-8") [Text (field h m "title")]).
Proof.
  pose proof (MoviesShow_connected_cases h state id) as Hcases.
  destruct (MoviesShowJs.mapStateToProps h state id) as [m|] eqn:Hfind.
  - destruct (MoviesShow_lookup_some h state id m Hfind) as (pre & post & Hms & Hm & Hpre).
    split.
    + rewrite Hcases. split; [done|]. intros Hall.
      rewrite Hall in Hm; [done|]. rewrite Hms. apply elem_of_app. right. left.
    + intros e. rewrite Hcases. split.
      * intros [= <-]. by exists m, pre, post.
      * intros (m' & pre' & post' & Hms' & Hm' & Hpre' & ->).
        assert (MoviesShowJs.mapStateToProps h state id = Some m') as Hfind'.
        { unfold MoviesShowJs.mapStateToProps. rewrite Hms'. by apply find_first. }
        congruence.
  - split.
    + rewrite Hcases. split; [|done]. intros _ m Hm.
      unfold MoviesShowJs.mapStateToProps in Hfind.
      apply list_elem_of_In in Hm. by apply (find_none _ _ Hfind).
    + intros e. rewrite Hcases. split; [done|].
      intros (m' & pre' & post' & Hms' & Hm' & Hpre' & ->).
      assert (MoviesShowJs.mapStateToProps h state id = Some m') as Hfind'.
      { unfold MoviesShowJs.mapStateToProps. rewrite Hms'. by apply find_first. }
      congruence.
Qed.
